(** * SimpLang: the driver of main.c and the lexer / parser / evaluator it calls

    The repository's only source file is [main.c], the driver.  It is
    embedded in part I, function by function, over the declarations of
    [compiler.h] (types, enumerators and the prototypes of [scan_init],
    [scan], [parse_expr], [eval_expr] and the [token_type_*] helpers), which
    are not part of the sources and are taken as parameters of a section.

    Part II models the lexer, the parser and the evaluator from the
    specification, since their code is not part of the sources. *)

From Stdlib Require Import ZArith List String Ascii Bool Arith Lia DecimalString.
Import ListNotations.

Local Open Scope string_scope.
Local Open Scope Z_scope.

(* ===================================================================== *)
(** * Part I: the driver, [main.c]                                        *)
(* ===================================================================== *)

(** ** Strings and printf *)

(** [printf("%" PRId64, i)]: the decimal rendering of a signed integer. *)
Definition PRId64 (i : Z) : string := NilZero.string_of_int (Z.to_int i).

Definition newline : string := String (ascii_of_nat 10) EmptyString.

Fixpoint repeat_string (s : string) (n : nat) : string :=
  match n with
  | O => EmptyString
  | S n' => s ++ repeat_string s n'
  end.

(** The number of line ends in a text. *)
Fixpoint count_newlines (s : string) : nat :=
  match s with
  | EmptyString => O
  | String c s' => ((if Ascii.eqb c (ascii_of_nat 10) then 1 else 0) + count_newlines s')%nat
  end.

(** ** C integers *)

Definition INT_MAX : Z := 2147483647.

(** The value of an [int] expression, two's complement wrap-around.  C
    leaves signed overflow undefined; what is proved about the value of
    [indent + 1] is proved where it stays within [INT_MAX]. *)
Definition int_wrap (z : Z) : Z := (z + 2147483648) mod 4294967296 - 2147483648.

(** ** Data of compiler.h as main.c uses it *)

(** [token_type_t] is a C enumeration: an integer. *)
Definition token_type_t : Type := Z.

(** [token_t]: the discriminant and the two members of the union [v] that
    main.c reads, [token.v.i] and [token.v.name]. *)
Record token_t : Type := mk_token {
  token_type : token_type_t;
  token_v_i : Z;
  token_v_name : string
}.

(** [expr_t]: the discriminant [expr->type] together with the member of the
    union [expr->v] that belongs to it.  A C enumeration object can hold a
    value that is none of its enumerators; [EXPR_INVALID] stands for a node
    with such a discriminant, the one that takes the [default] arm of a
    switch over the four enumerators. *)
Inductive expr_t : Type :=
| EXPR_INTEGER (i : Z)
| EXPR_IF (condition consequent alternative : expr_t)
| EXPR_UNARY (op : token_type_t) (operand : expr_t)
| EXPR_BINARY (op : token_type_t) (left right : expr_t)
| EXPR_INVALID (type : Z).

(** ** The process: output streams, abnormal termination *)

(** Calls that are recorded, in order, so that theorems can say which
    functions ran.  It is a ghost trace: no function reads it. *)
Inductive call : Type :=
| Call_scan_init (filename : string)
| Call_scan
| Call_parse_expr
| Call_eval_expr
| Call_scan_main
| Call_parse_main
| Call_eval_main.

(** The state of the process that the driver acts on.  [stdout] and
    [stderr] hold the text passed so far to the calls that write to the
    stream, in order; the buffering of the C library, and so how much of
    it has reached the file descriptor when the process is aborted, is
    not described. *)
Record world : Type := mk_world {
  stdout : string;
  stderr : string;
  calls : list call
}.

Definition world0 : world := mk_world "" "" [].

(** How a call ends: it returns, [assert(false)] aborts the process, or
    the fuel given to an unbounded loop ran out. *)
Inductive outcome (A : Type) : Type :=
| Returned (a : A)
| Aborted
| OutOfFuel.

Arguments Returned {A} a.
Arguments Aborted {A}.
Arguments OutOfFuel {A}.

Definition io (A : Type) : Type := world -> outcome A * world.

Definition ret {A} (a : A) : io A := fun w => (Returned a, w).

Definition bind {A B} (c : io A) (k : A -> io B) : io B :=
  fun w =>
    match c w with
    | (Returned a, w') => k a w'
    | (Aborted, w') => (Aborted, w')
    | (OutOfFuel, w') => (OutOfFuel, w')
    end.

Notation "x <- c ;; k" := (bind c (fun x => k))
  (at level 61, c at next level, right associativity).
Notation "c ;; k" := (bind c (fun _ => k))
  (at level 61, right associativity).

Definition write_stdout (s : string) (w : world) : world :=
  mk_world (stdout w ++ s) (stderr w) (calls w).

Definition write_stderr (s : string) (w : world) : world :=
  mk_world (stdout w) (stderr w ++ s) (calls w).

Definition record_call (c : call) (w : world) : world :=
  mk_world (stdout w) (stderr w) (calls w ++ [c]).

Definition printf (s : string) : io unit := fun w => (Returned tt, write_stdout s w).

Definition fprintf_stderr (s : string) : io unit :=
  fun w => (Returned tt, write_stderr s w).

(** [assert(false)], with [NDEBUG] not defined (main.c does not define
    it): the diagnostic of the failed assertion is written to the
    standard error, then the process is aborted. *)
Definition assert_false {A} (diagnostic : string) : io A :=
  fun w => (Aborted, write_stderr diagnostic w).

Definition out_of_fuel {A} : io A := fun w => (OutOfFuel, w).

Definition enter (c : call) : io unit := fun w => (Returned tt, record_call c w).

(** [for (int i = 0; i < indent; i++) printf("  ");] runs its body
    [Z.to_nat indent] times (not at all when [indent <= 0]). *)
Fixpoint print_indent_loop (n : nat) : io unit :=
  match n with
  | O => ret tt
  | S n' => printf "  " ;; print_indent_loop n'
  end.

Definition print_indent (indent : Z) : io unit := print_indent_loop (Z.to_nat indent).

Section Driver.

(** *** What compiler.h declares and main.c uses *)

Variable context_t : Type.

Variables TOKEN_EOF TOKEN_INTEGER TOKEN_IDENT : token_type_t.

Variable token_type_is_keyword : token_type_t -> bool.
Variable token_type_is_operator : token_type_t -> bool.
Variable token_type_keyword_name : token_type_t -> string.
Variable token_type_operator_name : token_type_t -> string.

(** [assert.h]: the diagnostic of a failed assertion, for the source line
    and the enclosing function; its format is the implementation's. *)
Variable assert_diagnostic : Z -> string -> string.

(** [void scan_init (context_t *ctx, char *filename)] *)
Variable scan_init : string -> context_t.
(** [token_t scan (context_t *ctx)] *)
Variable scan : context_t -> token_t * context_t.
(** [expr_t* parse_expr (context_t *ctx)] *)
Variable parse_expr : context_t -> expr_t * context_t.
(** [int64_t eval_expr (expr_t *expr)] *)
Variable eval_expr : expr_t -> Z.

Definition call_scan_init (filename : string) : io context_t :=
  enter (Call_scan_init filename) ;; ret (scan_init filename).

Definition call_scan (ctx : context_t) : io (token_t * context_t) :=
  enter Call_scan ;; ret (scan ctx).

Definition call_parse_expr (ctx : context_t) : io (expr_t * context_t) :=
  enter Call_parse_expr ;; ret (parse_expr ctx).

Definition call_eval_expr (expr : expr_t) : io Z :=
  enter Call_eval_expr ;; ret (eval_expr expr).

(** *** scan_main *)

(** The if / else-if chain of the loop body (main.c, lines 15 to 25). *)
Definition print_token (token : token_t) : io unit :=
  if token_type_is_keyword (token_type token) then
    printf ("keyword " ++ token_type_keyword_name (token_type token) ++ newline)
  else if token_type_is_operator (token_type token) then
    printf ("operator " ++ token_type_operator_name (token_type token) ++ newline)
  else if token_type token =? TOKEN_INTEGER then
    printf ("integer " ++ PRId64 (token_v_i token) ++ newline)
  else if token_type token =? TOKEN_IDENT then
    printf ("identifier " ++ token_v_name token ++ newline)
  else
    assert_false (assert_diagnostic 24 "scan_main").

(** The [for (;;)] loop; [fuel] bounds the number of iterations. *)
Fixpoint scan_main_loop (fuel : nat) (ctx : context_t) : io context_t :=
  match fuel with
  | O => out_of_fuel
  | S fuel' =>
      r <- call_scan ctx ;;
      let (token, ctx) := r in
      if token_type token =? TOKEN_EOF then ret ctx
      else print_token token ;; scan_main_loop fuel' ctx
  end.

Definition scan_main (fuel : nat) (ctx : context_t) : io context_t :=
  enter Call_scan_main ;; scan_main_loop fuel ctx.

(** *** print_expr *)

Fixpoint print_expr (expr : expr_t) (indent : Z) : io unit :=
  print_indent indent ;;
  match expr with
  | EXPR_INTEGER i =>
      printf (PRId64 i ++ newline)
  | EXPR_IF condition consequent alternative =>
      printf ("if" ++ newline) ;;
      print_expr condition (int_wrap (indent + 1)) ;;
      print_expr consequent (int_wrap (indent + 1)) ;;
      print_expr alternative (int_wrap (indent + 1))
  | EXPR_UNARY op operand =>
      printf (token_type_operator_name op ++ newline) ;;
      print_expr operand (int_wrap (indent + 1))
  | EXPR_BINARY op left' right' =>
      printf (token_type_operator_name op ++ newline) ;;
      print_expr left' (int_wrap (indent + 1)) ;;
      print_expr right' (int_wrap (indent + 1))
  | EXPR_INVALID _ =>
      assert_false (assert_diagnostic 54 "print_expr")
  end.

(** The same function without the knowledge that it terminates: every
    call, the first included, spends one unit of [fuel]. *)
Fixpoint print_expr_fuel (fuel : nat) (expr : expr_t) (indent : Z) : io unit :=
  match fuel with
  | O => out_of_fuel
  | S fuel' =>
      print_indent indent ;;
      match expr with
      | EXPR_INTEGER i =>
          printf (PRId64 i ++ newline)
      | EXPR_IF condition consequent alternative =>
          printf ("if" ++ newline) ;;
          print_expr_fuel fuel' condition (int_wrap (indent + 1)) ;;
          print_expr_fuel fuel' consequent (int_wrap (indent + 1)) ;;
          print_expr_fuel fuel' alternative (int_wrap (indent + 1))
      | EXPR_UNARY op operand =>
          printf (token_type_operator_name op ++ newline) ;;
          print_expr_fuel fuel' operand (int_wrap (indent + 1))
      | EXPR_BINARY op left' right' =>
          printf (token_type_operator_name op ++ newline) ;;
          print_expr_fuel fuel' left' (int_wrap (indent + 1)) ;;
          print_expr_fuel fuel' right' (int_wrap (indent + 1))
      | EXPR_INVALID _ =>
          assert_false (assert_diagnostic 54 "print_expr")
      end
  end.

(** *** What the claims about print_expr speak of *)

(** The arguments of the recursive calls of [print_expr], in order. *)
Definition print_expr_calls (expr : expr_t) : list expr_t :=
  match expr with
  | EXPR_INTEGER _ => []
  | EXPR_IF condition consequent alternative => [condition; consequent; alternative]
  | EXPR_UNARY _ operand => [operand]
  | EXPR_BINARY _ left' right' => [left'; right']
  | EXPR_INVALID _ => []
  end.

Definition expr_child (child parent : expr_t) : Prop :=
  In child (print_expr_calls parent).

(** Every discriminant of the tree is one of the four enumerators. *)
Fixpoint well_formed (expr : expr_t) : bool :=
  match expr with
  | EXPR_INTEGER _ => true
  | EXPR_IF condition consequent alternative =>
      well_formed condition && well_formed consequent && well_formed alternative
  | EXPR_UNARY _ operand => well_formed operand
  | EXPR_BINARY _ left' right' => well_formed left' && well_formed right'
  | EXPR_INVALID _ => false
  end.

Fixpoint depth (expr : expr_t) : nat :=
  match expr with
  | EXPR_INTEGER _ => O
  | EXPR_IF condition consequent alternative =>
      S (Nat.max (depth condition) (Nat.max (depth consequent) (depth alternative)))
  | EXPR_UNARY _ operand => S (depth operand)
  | EXPR_BINARY _ left' right' => S (Nat.max (depth left') (depth right'))
  | EXPR_INVALID _ => O
  end.

Fixpoint node_count (expr : expr_t) : nat :=
  match expr with
  | EXPR_INTEGER _ => 1
  | EXPR_IF condition consequent alternative =>
      S (node_count condition + node_count consequent + node_count alternative)
  | EXPR_UNARY _ operand => S (node_count operand)
  | EXPR_BINARY _ left' right' => S (node_count left' + node_count right')
  | EXPR_INVALID _ => 1
  end.

(** The dump as the specification words it: the nodes in pre-order, each
    with its nesting depth and its text; one line per node, the text
    after [d] copies of the indent unit. *)
Definition indent_unit : string := "  ".

Fixpoint dump_nodes (expr : expr_t) (d : nat) : list (nat * string) :=
  match expr with
  | EXPR_INTEGER i => [(d, PRId64 i)]
  | EXPR_IF condition consequent alternative =>
      (d, "if") :: dump_nodes condition (S d)
                ++ dump_nodes consequent (S d)
                ++ dump_nodes alternative (S d)
  | EXPR_UNARY op operand =>
      (d, token_type_operator_name op) :: dump_nodes operand (S d)
  | EXPR_BINARY op left' right' =>
      (d, token_type_operator_name op) :: dump_nodes left' (S d)
                                       ++ dump_nodes right' (S d)
  | EXPR_INVALID _ => []
  end.

Definition dump_line (node : nat * string) : string :=
  repeat_string indent_unit (fst node) ++ snd node ++ newline.

Fixpoint dump_lines (nodes : list (nat * string)) : string :=
  match nodes with
  | [] => EmptyString
  | node :: nodes' => dump_line node ++ dump_lines nodes'
  end.

Definition dump (expr : expr_t) (d : nat) : string := dump_lines (dump_nodes expr d).

(** *** What the claims about scan_main speak of *)

(** The context after [n] calls of [scan]. *)
Fixpoint scan_iter (n : nat) (ctx : context_t) : context_t :=
  match n with
  | O => ctx
  | S n' => scan_iter n' (snd (scan ctx))
  end.

(** The type is [TOKEN_EOF] or of one of the families of section 3. *)
Definition classified (type : token_type_t) : bool :=
  (type =? TOKEN_EOF) || token_type_is_keyword type || token_type_is_operator type
  || (type =? TOKEN_INTEGER) || (type =? TOKEN_IDENT).

(** The token that the [n]-th call of [scan] returns, counting from 0. *)
Definition scan_token (n : nat) (ctx : context_t) : token_t :=
  fst (scan (scan_iter n ctx)).

(** What the if / else-if chain of [scan_main] passes to [printf] for a
    token; [None] where it reaches [assert(false)]. *)
Definition token_line (token : token_t) : option string :=
  if token_type_is_keyword (token_type token) then
    Some ("keyword " ++ token_type_keyword_name (token_type token) ++ newline)
  else if token_type_is_operator (token_type token) then
    Some ("operator " ++ token_type_operator_name (token_type token) ++ newline)
  else if token_type token =? TOKEN_INTEGER then
    Some ("integer " ++ PRId64 (token_v_i token) ++ newline)
  else if token_type token =? TOKEN_IDENT then
    Some ("identifier " ++ token_v_name token ++ newline)
  else
    None.

(** The lines of the first [k] tokens of a context, one after the other. *)
Fixpoint scan_lines (k : nat) (ctx : context_t) : string :=
  match k with
  | O => EmptyString
  | S k' =>
      match token_line (fst (scan ctx)) with
      | Some text => text
      | None => EmptyString
      end ++ scan_lines k' (snd (scan ctx))
  end.

(** The text that [print_expr] writes, read off a run that starts with
    nothing written. *)
Definition print_expr_text (expr : expr_t) (indent : Z) : string :=
  stdout (snd (print_expr expr indent world0)).

(** *** parse_main, eval_main, main *)

Definition parse_main (ctx : context_t) : io context_t :=
  enter Call_parse_main ;;
  r <- call_parse_expr ctx ;;
  let (expr, ctx) := r in
  print_expr expr 0 ;;
  ret ctx.

Definition eval_main (ctx : context_t) : io context_t :=
  enter Call_eval_main ;;
  r <- call_parse_expr ctx ;;
  let (expr, ctx) := r in
  result <- call_eval_expr expr ;;
  printf (PRId64 result ++ newline) ;;
  ret ctx.

(** [argv] is the argument vector, the program name first; [argc] is its
    length.  The calls to [scan_main] and [eval_main] are commented out
    in the source. *)
Definition main (argv : list string) : io Z :=
  let argc := Z.of_nat (List.length argv) in
  if negb (argc =? 2) then
    fprintf_stderr ("Usage: simplang FILE" ++ newline) ;;
    ret 1
  else
    ctx <- call_scan_init (List.nth 1%nat argv EmptyString) ;;
    _ <- parse_main ctx ;;
    ret 0.

End Driver.

(** The calls of the three demonstration modes in a trace. *)
Definition is_mode (c : call) : bool :=
  match c with
  | Call_scan_main | Call_parse_main | Call_eval_main => true
  | _ => false
  end.

Definition modes_run (w : world) : list call := filter is_mode (calls w).

(* ===================================================================== *)
(** * Part II: lexer, parser and evaluator, from the specification        *)
(* ===================================================================== *)

(** The sources hold no scanner, parser or evaluator: main.c only calls
    them.  Every definition of this module is modelled from the
    specification (sections 3, 4, 6 and 7). *)

Module Pipeline.

(** ** Data model (section 3) *)

(** Modelled from the spec: the reserved words.  [compiler.h] and the
    scanner are missing; the specification names [if] and writes [else]
    in its conditional examples. *)
Inductive Keyword : Type := KW_IF | KW_ELSE.

(** Modelled from the spec: the operator tokens, a fixed set of one- and
    two-character symbols (the scanner's table is missing). *)
Inductive Operator : Type :=
| OP_PLUS | OP_MINUS | OP_STAR | OP_SLASH | OP_PERCENT
| OP_EQ | OP_NE | OP_LT | OP_LE | OP_GT | OP_GE
| OP_ASSIGN | OP_NOT | OP_LPAREN | OP_RPAREN.

(** Modelled from the spec: [Token], a tagged value of three families
    (keywords, operators, literals and identifiers) plus [TOKEN_EOF]
    (the declaration of [token_t] is missing). *)
Inductive Token : Type :=
| TOKEN_KEYWORD (k : Keyword)
| TOKEN_OPERATOR (o : Operator)
| TOKEN_INTEGER (value : Z)
| TOKEN_IDENT (name : string)
| TOKEN_EOF.

(** Modelled from the spec: the operators an [Expr] node carries.  The
    arity invariant of section 3 is held by the types: a [UNARY] node
    has a prefix operator, a [BINARY] node an infix one. *)
Inductive UnaryOp : Type := NEGATE | NOT.

Inductive BinaryOp : Type :=
| ADD | SUB | MUL | DIV | MOD
| EQ | NE | LT | LE | GT | GE.

(** Modelled from the spec: [Expr], a tagged union over four variants
    (the declaration of [expr_t] is missing). *)
Inductive Expr : Type :=
| INTEGER (value : Z)
| IF (condition consequent alternative : Expr)
| UNARY (op : UnaryOp) (operand : Expr)
| BINARY (op : BinaryOp) (left right : Expr).

(** Modelled from the spec: the grammar rule that was active when the
    parser failed, carried by [UnexpectedToken]. *)
Inductive Production : Type :=
| PROD_IF | PROD_PRIMARY | PROD_PAREN.

(** ** Errors (section 7) *)

(** Modelled from the spec: the error taxonomy of section 7 (no error
    type is declared in the sources): [IoError], [LexError], [ParseError]
    and [EvalError], each carrying what a message needs. *)
Inductive IoError : Type := SourceUnreadable (source_path : string).

Inductive LexError : Type :=
| UnexpectedChar (position : nat) (c : ascii)
| MalformedNumber (position : nat) (digits : list ascii).

Inductive ParseError : Type :=
| UnexpectedToken (offending : Token) (production : Production).

Inductive EvalError : Type :=
| DivisionByZero
| Overflow
| UnboundIdentifier (name : string).

(** Modelled from the spec: what the parser stage can surface, its own
    error or the lexer's, unchanged (section 7). *)
Inductive Error : Type :=
| LexFailure (e : LexError)
| ParseFailure (e : ParseError).

Inductive result (A E : Type) : Type :=
| Ok (a : A)
| Err (e : E).

Arguments Ok {A E} a.
Arguments Err {A E} e.

(** ** Context (section 3) *)

(** Modelled from the spec: the state shared by lexer and parser.  The
    source buffer and the scan position are held as the unread suffix of
    the buffer ([input]) and the offset of its first byte ([position]). *)
Record Context : Type := mk_context {
  input : list ascii;
  position : nat;
  line : nat;
  current : option Token
}.

(** Modelled from the spec: the context that [init] builds from the text
    of a source, ready for the first [next_token] or parse call. *)
Definition context_of_source (text : string) : Context :=
  mk_context (list_ascii_of_string text) 0 1 None.

(** Modelled from the spec: [init] (section 6, [scan_init] in main.c,
    whose code is missing); [read] stands for the file system. *)
Definition init (read : string -> option string) (source_path : string)
  : result Context IoError :=
  match read source_path with
  | Some text => Ok (context_of_source text)
  | None => Err (SourceUnreadable source_path)
  end.

(** ** Lexer (section 4.1) *)

Definition INT64_MAX : Z := 9223372036854775807.
Definition INT64_MIN : Z := -9223372036854775808.

Definition code (c : ascii) : nat := nat_of_ascii c.

Definition is_newline (c : ascii) : bool := (code c =? 10)%nat.

Definition is_space (c : ascii) : bool :=
  ((code c =? 32) || (code c =? 9) || (code c =? 10) || (code c =? 13))%nat.

Definition is_digit (c : ascii) : bool :=
  ((48 <=? code c) && (code c <=? 57))%nat.

Definition is_letter (c : ascii) : bool :=
  (((65 <=? code c) && (code c <=? 90)) || ((97 <=? code c) && (code c <=? 122)))%nat.

Definition is_letter_or_digit (c : ascii) : bool := is_letter c || is_digit c.

(** Modelled from the spec: a maximal run, the longest prefix whose bytes
    satisfy [p], and what follows it. *)
Fixpoint span (p : ascii -> bool) (s : list ascii) : list ascii * list ascii :=
  match s with
  | [] => ([], [])
  | c :: rest =>
      if p c then let (run, rest') := span p rest in (c :: run, rest')
      else ([], s)
  end.

(** Modelled from the spec: whitespace between tokens is skipped;
    newlines advance [line]. *)
Fixpoint skip_whitespace (s : list ascii) (pos ln : nat) : list ascii * nat * nat :=
  match s with
  | [] => ([], pos, ln)
  | c :: rest =>
      if is_space c
      then skip_whitespace rest (S pos) (if is_newline c then S ln else ln)
      else (s, pos, ln)
  end.

Definition digit_value (c : ascii) : Z := Z.of_nat (code c - 48).

(** Modelled from the spec: the base-10 value of a run of digits. *)
Definition decimal_value (digits : list ascii) : Z :=
  fold_left (fun acc c => 10 * acc + digit_value c) digits 0.

(** Modelled from the spec: the reserved word set. *)
Definition keyword_of (word : string) : option Keyword :=
  if (word =? "if")%string then Some KW_IF
  else if (word =? "else")%string then Some KW_ELSE
  else None.

(** Modelled from the spec: the symbol sequences of the operators. *)
Definition two_char_operator (c d : ascii) : option Operator :=
  if ((c =? "=") && (d =? "="))%char then Some OP_EQ
  else if ((c =? "!") && (d =? "="))%char then Some OP_NE
  else if ((c =? "<") && (d =? "="))%char then Some OP_LE
  else if ((c =? ">") && (d =? "="))%char then Some OP_GE
  else None.

Definition one_char_operator (c : ascii) : option Operator :=
  if (c =? "+")%char then Some OP_PLUS
  else if (c =? "-")%char then Some OP_MINUS
  else if (c =? "*")%char then Some OP_STAR
  else if (c =? "/")%char then Some OP_SLASH
  else if (c =? "%")%char then Some OP_PERCENT
  else if (c =? "<")%char then Some OP_LT
  else if (c =? ">")%char then Some OP_GT
  else if (c =? "=")%char then Some OP_ASSIGN
  else if (c =? "!")%char then Some OP_NOT
  else if (c =? "(")%char then Some OP_LPAREN
  else if (c =? ")")%char then Some OP_RPAREN
  else None.

(** Modelled from the spec: longest match, a two-character operator
    wins over a one-character one.  Returns the operator and the number
    of bytes it spans. *)
Definition lex_operator (s : list ascii) : option (Operator * nat) :=
  match s with
  | [] => None
  | c :: rest =>
      match
        match rest with
        | d :: _ => two_char_operator c d
        | [] => None
        end
      with
      | Some o => Some (o, 2%nat)
      | None =>
          match one_char_operator c with
          | Some o => Some (o, 1%nat)
          | None => None
          end
      end
  end.

(** Modelled from the spec: the lexer entry point [next_token] (the
    scanner, [scan] in main.c, is missing).  It moves the cursor past
    the token it returns and leaves the lookahead [current] alone; on an
    error the cursor stays at the offending byte. *)
Definition next_token (ctx : Context) : result Token LexError * Context :=
  let '(s, pos, ln) := skip_whitespace (input ctx) (position ctx) (line ctx) in
  let here := mk_context s pos ln (current ctx) in
  match s with
  | [] => (Ok TOKEN_EOF, here)
  | c :: _ =>
      if is_digit c then
        let (digits, rest) := span is_digit s in
        let value := decimal_value digits in
        if value <=? INT64_MAX
        then (Ok (TOKEN_INTEGER value),
              mk_context rest (pos + List.length digits) ln (current ctx))
        else (Err (MalformedNumber pos digits), here)
      else if is_letter c then
        let (word, rest) := span is_letter_or_digit s in
        let name := string_of_list_ascii word in
        (Ok match keyword_of name with
            | Some k => TOKEN_KEYWORD k
            | None => TOKEN_IDENT name
            end,
         mk_context rest (pos + List.length word) ln (current ctx))
      else
        match lex_operator s with
        | Some (o, n) =>
            (Ok (TOKEN_OPERATOR o),
             mk_context (skipn n s) (pos + n) ln (current ctx))
        | None => (Err (UnexpectedChar pos c), here)
        end
  end.

(** The tokens of a context, read one after the other until
    [TOKEN_EOF] or the first error; at most [fuel] calls. *)
Fixpoint tokens (fuel : nat) (ctx : Context) : list (result Token LexError) :=
  match fuel with
  | O => []
  | S fuel' =>
      match next_token ctx with
      | (Ok TOKEN_EOF, _) => [Ok TOKEN_EOF]
      | (Ok t, ctx') => Ok t :: tokens fuel' ctx'
      | (Err e, _) => [Err e]
      end
  end.

(** ** Parser (section 4.2) *)

(** Modelled from the spec: a parser action reads and moves the shared
    context, and ends with a value or with the first error (section 7).
    [None] only when the fuel that bounds the recursion ran out. *)
Definition parser (A : Type) : Type := Context -> option (result A Error * Context).

Definition pure {A} (a : A) : parser A := fun ctx => Some (Ok a, ctx).

Definition fail {A} (e : Error) : parser A := fun ctx => Some (Err e, ctx).

Definition and_then {A B} (p : parser A) (k : A -> parser B) : parser B :=
  fun ctx =>
    match p ctx with
    | Some (Ok a, ctx') => k a ctx'
    | Some (Err e, ctx') => Some (Err e, ctx')
    | None => None
    end.

Declare Scope parser_scope.
Delimit Scope parser_scope with parser.
Notation "x <- p ;; k" := (and_then p (fun x => k))
  (at level 61, p at next level, right associativity) : parser_scope.
Notation "p ;; k" := (and_then p (fun _ => k))
  (at level 61, right associativity) : parser_scope.
Local Open Scope parser_scope.

Definition set_current (t : Token) (ctx : Context) : Context :=
  mk_context (input ctx) (position ctx) (line ctx) (Some t).

(** Modelled from the spec: the lookahead protocol of section 4.2.  To
    consume a token is to fetch the next one from the lexer and make it
    the current one. *)
Definition advance : parser unit :=
  fun ctx =>
    match next_token ctx with
    | (Ok t, ctx') => Some (Ok tt, set_current t ctx')
    | (Err e, ctx') => Some (Err (LexFailure e), ctx')
    end.

(** The current token; the first use after [init] fetches it. *)
Definition current_token : parser Token :=
  fun ctx =>
    match current ctx with
    | Some t => Some (Ok t, ctx)
    | None =>
        match next_token ctx with
        | (Ok t, ctx') => Some (Ok t, set_current t ctx')
        | (Err e, ctx') => Some (Err (LexFailure e), ctx')
        end
    end.

Definition unexpected {A} (t : Token) (p : Production) : parser A :=
  fail (ParseFailure (UnexpectedToken t p)).

(** Modelled from the spec: the binary operators with their precedence
    (the parser's table is missing); a larger number binds tighter, and
    all of them associate to the left. *)
Definition binary_operator (t : Token) : option (BinaryOp * nat) :=
  match t with
  | TOKEN_OPERATOR OP_EQ => Some (EQ, 1%nat)
  | TOKEN_OPERATOR OP_NE => Some (NE, 1%nat)
  | TOKEN_OPERATOR OP_LT => Some (LT, 2%nat)
  | TOKEN_OPERATOR OP_LE => Some (LE, 2%nat)
  | TOKEN_OPERATOR OP_GT => Some (GT, 2%nat)
  | TOKEN_OPERATOR OP_GE => Some (GE, 2%nat)
  | TOKEN_OPERATOR OP_PLUS => Some (ADD, 3%nat)
  | TOKEN_OPERATOR OP_MINUS => Some (SUB, 3%nat)
  | TOKEN_OPERATOR OP_STAR => Some (MUL, 4%nat)
  | TOKEN_OPERATOR OP_SLASH => Some (DIV, 4%nat)
  | TOKEN_OPERATOR OP_PERCENT => Some (MOD, 4%nat)
  | _ => None
  end.

(** Modelled from the spec: the prefix operators. *)
Definition unary_operator (t : Token) : option UnaryOp :=
  match t with
  | TOKEN_OPERATOR OP_MINUS => Some NEGATE
  | TOKEN_OPERATOR OP_NOT => Some NOT
  | _ => None
  end.

(** Consume the current token when it is [else], fail otherwise. *)
Definition expect_else : parser unit :=
  t <- current_token ;;
  match t with
  | TOKEN_KEYWORD KW_ELSE => advance
  | _ => unexpected t PROD_IF
  end.

(** Consume the current token when it is [)], fail otherwise. *)
Definition expect_rparen : parser unit :=
  t <- current_token ;;
  match t with
  | TOKEN_OPERATOR OP_RPAREN => advance
  | _ => unexpected t PROD_PAREN
  end.

(** Modelled from the spec: the grammar of section 4.2, lowest precedence
    first: conditional ([if] condition consequent [else] alternative),
    binary expressions by precedence climbing, prefix operators,
    primaries (integer literal or parenthesized expression; [Expr] has no
    variant for an identifier, which is an unexpected token).  Each rule
    decides from the current token alone; [fuel] bounds the recursion. *)
Fixpoint parse_expr (fuel : nat) : parser Expr :=
  match fuel with
  | O => fun _ => None
  | S fuel' =>
      t <- current_token ;;
      match t with
      | TOKEN_KEYWORD KW_IF =>
          advance ;;
          condition <- parse_expr fuel' ;;
          consequent <- parse_expr fuel' ;;
          expect_else ;;
          alternative <- parse_expr fuel' ;;
          pure (IF condition consequent alternative)
      | _ => parse_binary fuel' 0%nat
      end
  end
with parse_binary (fuel : nat) (min_prec : nat) : parser Expr :=
  match fuel with
  | O => fun _ => None
  | S fuel' =>
      lhs <- parse_unary fuel' ;;
      parse_binary_rest fuel' min_prec lhs
  end
with parse_binary_rest (fuel : nat) (min_prec : nat) (lhs : Expr) : parser Expr :=
  match fuel with
  | O => fun _ => None
  | S fuel' =>
      t <- current_token ;;
      match binary_operator t with
      | Some (op, prec) =>
          if (min_prec <=? prec)%nat then
            advance ;;
            rhs <- parse_binary fuel' (S prec) ;;
            parse_binary_rest fuel' min_prec (BINARY op lhs rhs)
          else pure lhs
      | None => pure lhs
      end
  end
with parse_unary (fuel : nat) : parser Expr :=
  match fuel with
  | O => fun _ => None
  | S fuel' =>
      t <- current_token ;;
      match unary_operator t with
      | Some op =>
          advance ;;
          operand <- parse_unary fuel' ;;
          pure (UNARY op operand)
      | None => parse_primary fuel'
      end
  end
with parse_primary (fuel : nat) : parser Expr :=
  match fuel with
  | O => fun _ => None
  | S fuel' =>
      t <- current_token ;;
      match t with
      | TOKEN_INTEGER value =>
          advance ;;
          pure (INTEGER value)
      | TOKEN_OPERATOR OP_LPAREN =>
          advance ;;
          e <- parse_expr fuel' ;;
          expect_rparen ;;
          pure e
      | _ => unexpected t PROD_PRIMARY
      end
  end.

(** An upper bound on the tokens still to come, the current one
    included unless it is [TOKEN_EOF]. *)
Definition remaining (ctx : Context) : nat :=
  (List.length (input ctx) +
   match current ctx with
   | Some TOKEN_EOF => 0
   | Some _ => 1
   | None => 0
   end)%nat.

(** Modelled from the spec: the parser entry point [parse_expression]
    ([parse_expr] in main.c, whose code is missing). *)
Definition parse_expression (ctx : Context) : option (result Expr Error * Context) :=
  parse_expr (4 * remaining ctx + 5) ctx.

(** ** Evaluator (section 4.3) *)

(** Modelled from the spec: arithmetic is checked, a result outside the
    signed 64-bit range is [Overflow] (section 4.3 leaves the choice
    between this and wrapping to the implementation). *)
Definition checked (z : Z) : result Z EvalError :=
  if (INT64_MIN <=? z) && (z <=? INT64_MAX) then Ok z else Err Overflow.

Definition truth (b : bool) : Z := if b then 1 else 0.

(** Modelled from the spec: what the operators compute; comparisons and
    logical negation give 1 or 0, division and remainder truncate and
    fail on a zero divisor. *)
Definition apply_unary (op : UnaryOp) (a : Z) : result Z EvalError :=
  match op with
  | NEGATE => checked (- a)
  | NOT => Ok (truth (a =? 0))
  end.

Definition apply_binary (op : BinaryOp) (a b : Z) : result Z EvalError :=
  match op with
  | ADD => checked (a + b)
  | SUB => checked (a - b)
  | MUL => checked (a * b)
  | DIV => if b =? 0 then Err DivisionByZero else checked (Z.quot a b)
  | MOD => if b =? 0 then Err DivisionByZero else Ok (Z.rem a b)
  | EQ => Ok (truth (a =? b))
  | NE => Ok (truth (negb (a =? b)))
  | LT => Ok (truth (a <? b))
  | LE => Ok (truth (a <=? b))
  | GT => Ok (truth (a >? b))
  | GE => Ok (truth (a >=? b))
  end.

(** Modelled from the spec: the evaluator entry point [evaluate]
    ([eval_expr] in main.c, whose code is missing). *)
Fixpoint evaluate (expr : Expr) : result Z EvalError :=
  match expr with
  | INTEGER value => Ok value
  | IF condition consequent alternative =>
      match evaluate condition with
      | Err e => Err e
      | Ok c => if c =? 0 then evaluate alternative else evaluate consequent
      end
  | UNARY op operand =>
      match evaluate operand with
      | Err e => Err e
      | Ok a => apply_unary op a
      end
  | BINARY op lhs rhs =>
      match evaluate lhs with
      | Err e => Err e
      | Ok a =>
          match evaluate rhs with
          | Err e => Err e
          | Ok b => apply_binary op a b
          end
      end
  end.

(** The action ends, with a value or an error, for the fuel it has. *)
Definition returns {A} (p : parser A) (ctx : Context) : Prop :=
  exists r ctx', p ctx = Some (r, ctx').

(** An error is surfaced at [ctx] as it arose: a lexer error is the one
    [next_token] reports at [ctx], a parser error carries the token that is
    current at [ctx]. *)
Definition surfaced (x : Error) (ctx : Context) : Prop :=
  match x with
  | LexFailure e => next_token ctx = (Err e, ctx)
  | ParseFailure (UnexpectedToken t _) => current ctx = Some t
  end.

Definition faithful {A} (p : parser A) : Prop :=
  forall ctx x ctx', p ctx = Some (Err x, ctx') -> surfaced x ctx'.

(** The context after [n] calls of [next_token]. *)
Fixpoint after_calls (n : nat) (ctx : Context) : Context :=
  match n with
  | O => ctx
  | S n' => after_calls n' (snd (next_token ctx))
  end.

(** ** What sections 4.2 and 7 ask of a parse *)

(** The grammar and the error policy once more, as a relation between
    the context a rule starts in, its result and the context it ends in.
    It is worded from the specification and speaks of the lexer alone,
    not of the parser's functions: a rule's steps happen in order, the
    first step that fails ends the rule, and the rule's result is then
    that step's error, as it is. *)

(** Modelled from the spec: a token is consumed by fetching the next one
    from the lexer, which becomes the current token; a lexer error is
    the result, unchanged. *)
Definition fetches (ctx : Context) (r : result unit Error) (ctx' : Context) : Prop :=
  match next_token ctx with
  | (Ok t, c) => r = Ok tt /\ ctx' = mk_context (input c) (position c) (line c) (Some t)
  | (Err e, c) => r = Err (LexFailure e) /\ ctx' = c
  end.

(** Modelled from the spec: the current token, fetched when there is
    none yet. *)
Definition looks (ctx : Context) (r : result Token Error) (ctx' : Context) : Prop :=
  match current ctx with
  | Some t => r = Ok t /\ ctx' = ctx
  | None =>
      match next_token ctx with
      | (Ok t, c) => r = Ok t /\ ctx' = mk_context (input c) (position c) (line c) (Some t)
      | (Err e, c) => r = Err (LexFailure e) /\ ctx' = c
      end
  end.

(** Modelled from the spec: a token that the production requires is
    consumed when it is the current one; any other token is the
    offending token of an [UnexpectedToken]. *)
Inductive expects (wanted : Token) (p : Production) (ctx : Context)
  : result unit Error -> Context -> Prop :=
| expects_look_fails x c :
    looks ctx (Err x) c -> expects wanted p ctx (Err x) c
| expects_other t c :
    looks ctx (Ok t) c -> t <> wanted ->
    expects wanted p ctx (Err (ParseFailure (UnexpectedToken t p))) c
| expects_wanted c r c' :
    looks ctx (Ok wanted) c -> fetches c r c' -> expects wanted p ctx r c'.

(** Modelled from the spec: the rules of the grammar.  [spec_expr] is an
    expression, [spec_if] a conditional whose [if] is the current token,
    [spec_binary] a binary expression of operators of at least the given
    precedence, [spec_rest] the operators and operands that follow a left
    operand, [spec_unary] a prefix expression, [spec_primary] a
    primary. *)
Inductive spec_expr : Context -> result Expr Error -> Context -> Prop :=
| SE_look_fails ctx x c :
    looks ctx (Err x) c -> spec_expr ctx (Err x) c
| SE_conditional ctx c1 r c' :
    looks ctx (Ok (TOKEN_KEYWORD KW_IF)) c1 -> spec_if c1 r c' ->
    spec_expr ctx r c'
| SE_binary ctx t c1 r c' :
    looks ctx (Ok t) c1 -> t <> TOKEN_KEYWORD KW_IF ->
    spec_binary 0 c1 r c' -> spec_expr ctx r c'

with spec_if : Context -> result Expr Error -> Context -> Prop :=
| SI_if_fails c1 x c2 :
    fetches c1 (Err x) c2 -> spec_if c1 (Err x) c2
| SI_condition_fails c1 c2 x c3 :
    fetches c1 (Ok tt) c2 -> spec_expr c2 (Err x) c3 -> spec_if c1 (Err x) c3
| SI_consequent_fails c1 c2 condition c3 x c4 :
    fetches c1 (Ok tt) c2 -> spec_expr c2 (Ok condition) c3 ->
    spec_expr c3 (Err x) c4 -> spec_if c1 (Err x) c4
| SI_else_fails c1 c2 condition c3 consequent c4 x c5 :
    fetches c1 (Ok tt) c2 -> spec_expr c2 (Ok condition) c3 ->
    spec_expr c3 (Ok consequent) c4 ->
    expects (TOKEN_KEYWORD KW_ELSE) PROD_IF c4 (Err x) c5 ->
    spec_if c1 (Err x) c5
| SI_alternative_fails c1 c2 condition c3 consequent c4 c5 x c6 :
    fetches c1 (Ok tt) c2 -> spec_expr c2 (Ok condition) c3 ->
    spec_expr c3 (Ok consequent) c4 ->
    expects (TOKEN_KEYWORD KW_ELSE) PROD_IF c4 (Ok tt) c5 ->
    spec_expr c5 (Err x) c6 -> spec_if c1 (Err x) c6
| SI_conditional c1 c2 condition c3 consequent c4 c5 alternative c6 :
    fetches c1 (Ok tt) c2 -> spec_expr c2 (Ok condition) c3 ->
    spec_expr c3 (Ok consequent) c4 ->
    expects (TOKEN_KEYWORD KW_ELSE) PROD_IF c4 (Ok tt) c5 ->
    spec_expr c5 (Ok alternative) c6 ->
    spec_if c1 (Ok (IF condition consequent alternative)) c6

with spec_binary : nat -> Context -> result Expr Error -> Context -> Prop :=
| SB_operand_fails min_prec ctx x c :
    spec_unary ctx (Err x) c -> spec_binary min_prec ctx (Err x) c
| SB_operand min_prec ctx lhs c1 r c' :
    spec_unary ctx (Ok lhs) c1 -> spec_rest min_prec lhs c1 r c' ->
    spec_binary min_prec ctx r c'

with spec_rest : nat -> Expr -> Context -> result Expr Error -> Context -> Prop :=
| SR_look_fails min_prec lhs ctx x c :
    looks ctx (Err x) c -> spec_rest min_prec lhs ctx (Err x) c
| SR_no_operator min_prec lhs ctx t c :
    looks ctx (Ok t) c -> binary_operator t = None ->
    spec_rest min_prec lhs ctx (Ok lhs) c
| SR_weaker_operator min_prec lhs ctx t op prec c :
    looks ctx (Ok t) c -> binary_operator t = Some (op, prec) ->
    (prec < min_prec)%nat ->
    spec_rest min_prec lhs ctx (Ok lhs) c
| SR_operator_fails min_prec lhs ctx t op prec c1 x c2 :
    looks ctx (Ok t) c1 -> binary_operator t = Some (op, prec) ->
    (min_prec <= prec)%nat ->
    fetches c1 (Err x) c2 -> spec_rest min_prec lhs ctx (Err x) c2
| SR_operand_fails min_prec lhs ctx t op prec c1 c2 x c3 :
    looks ctx (Ok t) c1 -> binary_operator t = Some (op, prec) ->
    (min_prec <= prec)%nat ->
    fetches c1 (Ok tt) c2 -> spec_binary (S prec) c2 (Err x) c3 ->
    spec_rest min_prec lhs ctx (Err x) c3
| SR_operator min_prec lhs ctx t op prec c1 c2 rhs c3 r c' :
    looks ctx (Ok t) c1 -> binary_operator t = Some (op, prec) ->
    (min_prec <= prec)%nat ->
    fetches c1 (Ok tt) c2 -> spec_binary (S prec) c2 (Ok rhs) c3 ->
    spec_rest min_prec (BINARY op lhs rhs) c3 r c' ->
    spec_rest min_prec lhs ctx r c'

with spec_unary : Context -> result Expr Error -> Context -> Prop :=
| SU_look_fails ctx x c :
    looks ctx (Err x) c -> spec_unary ctx (Err x) c
| SU_primary ctx t c1 r c' :
    looks ctx (Ok t) c1 -> unary_operator t = None ->
    spec_primary c1 r c' -> spec_unary ctx r c'
| SU_operator_fails ctx t op c1 x c2 :
    looks ctx (Ok t) c1 -> unary_operator t = Some op ->
    fetches c1 (Err x) c2 -> spec_unary ctx (Err x) c2
| SU_operand_fails ctx t op c1 c2 x c3 :
    looks ctx (Ok t) c1 -> unary_operator t = Some op ->
    fetches c1 (Ok tt) c2 -> spec_unary c2 (Err x) c3 ->
    spec_unary ctx (Err x) c3
| SU_operator ctx t op c1 c2 operand c3 :
    looks ctx (Ok t) c1 -> unary_operator t = Some op ->
    fetches c1 (Ok tt) c2 -> spec_unary c2 (Ok operand) c3 ->
    spec_unary ctx (Ok (UNARY op operand)) c3

with spec_primary : Context -> result Expr Error -> Context -> Prop :=
| SP_look_fails ctx x c :
    looks ctx (Err x) c -> spec_primary ctx (Err x) c
| SP_integer_fails ctx value c1 x c2 :
    looks ctx (Ok (TOKEN_INTEGER value)) c1 -> fetches c1 (Err x) c2 ->
    spec_primary ctx (Err x) c2
| SP_integer ctx value c1 c2 :
    looks ctx (Ok (TOKEN_INTEGER value)) c1 -> fetches c1 (Ok tt) c2 ->
    spec_primary ctx (Ok (INTEGER value)) c2
| SP_open_fails ctx c1 x c2 :
    looks ctx (Ok (TOKEN_OPERATOR OP_LPAREN)) c1 -> fetches c1 (Err x) c2 ->
    spec_primary ctx (Err x) c2
| SP_inner_fails ctx c1 c2 x c3 :
    looks ctx (Ok (TOKEN_OPERATOR OP_LPAREN)) c1 -> fetches c1 (Ok tt) c2 ->
    spec_expr c2 (Err x) c3 -> spec_primary ctx (Err x) c3
| SP_close_fails ctx c1 c2 e c3 x c4 :
    looks ctx (Ok (TOKEN_OPERATOR OP_LPAREN)) c1 -> fetches c1 (Ok tt) c2 ->
    spec_expr c2 (Ok e) c3 ->
    expects (TOKEN_OPERATOR OP_RPAREN) PROD_PAREN c3 (Err x) c4 ->
    spec_primary ctx (Err x) c4
| SP_parenthesized ctx c1 c2 e c3 c4 :
    looks ctx (Ok (TOKEN_OPERATOR OP_LPAREN)) c1 -> fetches c1 (Ok tt) c2 ->
    spec_expr c2 (Ok e) c3 ->
    expects (TOKEN_OPERATOR OP_RPAREN) PROD_PAREN c3 (Ok tt) c4 ->
    spec_primary ctx (Ok e) c4
| SP_unexpected ctx t c :
    looks ctx (Ok t) c ->
    (forall value, t <> TOKEN_INTEGER value) ->
    t <> TOKEN_OPERATOR OP_LPAREN ->
    spec_primary ctx (Err (ParseFailure (UnexpectedToken t PROD_PRIMARY))) c.

Scheme spec_expr_rules := Minimality for spec_expr Sort Prop
  with spec_if_rules := Minimality for spec_if Sort Prop
  with spec_binary_rules := Minimality for spec_binary Sort Prop
  with spec_rest_rules := Minimality for spec_rest Sort Prop
  with spec_unary_rules := Minimality for spec_unary Sort Prop
  with spec_primary_rules := Minimality for spec_primary Sort Prop.

Combined Scheme spec_rules from spec_expr_rules, spec_if_rules, spec_binary_rules,
  spec_rest_rules, spec_unary_rules, spec_primary_rules.

(** The tree that [parse_expression] returns for a source text. *)
Definition parse_source (text : string) : option (result Expr Error) :=
  option_map fst (parse_expression (context_of_source text)).

End Pipeline.


(* ===================================================================== *)
(** * The driver linked with the modelled pipeline                        *)
(* ===================================================================== *)

(** One instance of the parameters of section [Driver], so that the driver
    runs on concrete inputs: the enumerators get numbers and the modelled
    lexer and parser stand behind [scan] and [parse_expr].  The C
    prototypes have no error channel; here an error becomes a token or a
    node whose discriminant, -1, is no enumerator. *)
Module Linked.

Definition TOKEN_EOF : token_type_t := 0.
Definition TOKEN_INTEGER : token_type_t := 1.
Definition TOKEN_IDENT : token_type_t := 2.

Definition keyword_type (k : Pipeline.Keyword) : token_type_t :=
  match k with
  | Pipeline.KW_IF => 10
  | Pipeline.KW_ELSE => 11
  end.

Definition operator_type (o : Pipeline.Operator) : token_type_t :=
  match o with
  | Pipeline.OP_PLUS => 20 | Pipeline.OP_MINUS => 21 | Pipeline.OP_STAR => 22
  | Pipeline.OP_SLASH => 23 | Pipeline.OP_PERCENT => 24
  | Pipeline.OP_EQ => 25 | Pipeline.OP_NE => 26
  | Pipeline.OP_LT => 27 | Pipeline.OP_LE => 28
  | Pipeline.OP_GT => 29 | Pipeline.OP_GE => 30
  | Pipeline.OP_ASSIGN => 31 | Pipeline.OP_NOT => 32
  | Pipeline.OP_LPAREN => 33 | Pipeline.OP_RPAREN => 34
  end.

Definition token_type_is_keyword (type : token_type_t) : bool :=
  (10 <=? type) && (type <=? 11).

Definition token_type_is_operator (type : token_type_t) : bool :=
  (20 <=? type) && (type <=? 34).

Definition token_type_keyword_name (type : token_type_t) : string :=
  if type =? 10 then "if" else "else".

Definition operator_names : list string :=
  ["+"; "-"; "*"; "/"; "%"; "=="; "!="; "<"; "<="; ">"; ">="; "="; "!"; "("; ")"].

Definition token_type_operator_name (type : token_type_t) : string :=
  List.nth (Z.to_nat (type - 20)) operator_names "?".

(** The diagnostic in the format of the GNU C library, without the
    program name. *)
Definition assert_diagnostic (line : Z) (function : string) : string :=
  "main.c:" ++ PRId64 line ++ ": " ++ function ++ ": Assertion `false' failed."
  ++ newline.

Definition token_of (t : Pipeline.Token) : token_t :=
  match t with
  | Pipeline.TOKEN_KEYWORD k => mk_token (keyword_type k) 0 ""
  | Pipeline.TOKEN_OPERATOR o => mk_token (operator_type o) 0 ""
  | Pipeline.TOKEN_INTEGER value => mk_token TOKEN_INTEGER value ""
  | Pipeline.TOKEN_IDENT name => mk_token TOKEN_IDENT 0 name
  | Pipeline.TOKEN_EOF => mk_token TOKEN_EOF 0 ""
  end.

Definition unary_type (op : Pipeline.UnaryOp) : token_type_t :=
  match op with
  | Pipeline.NEGATE => operator_type Pipeline.OP_MINUS
  | Pipeline.NOT => operator_type Pipeline.OP_NOT
  end.

Definition binary_type (op : Pipeline.BinaryOp) : token_type_t :=
  match op with
  | Pipeline.ADD => operator_type Pipeline.OP_PLUS
  | Pipeline.SUB => operator_type Pipeline.OP_MINUS
  | Pipeline.MUL => operator_type Pipeline.OP_STAR
  | Pipeline.DIV => operator_type Pipeline.OP_SLASH
  | Pipeline.MOD => operator_type Pipeline.OP_PERCENT
  | Pipeline.EQ => operator_type Pipeline.OP_EQ
  | Pipeline.NE => operator_type Pipeline.OP_NE
  | Pipeline.LT => operator_type Pipeline.OP_LT
  | Pipeline.LE => operator_type Pipeline.OP_LE
  | Pipeline.GT => operator_type Pipeline.OP_GT
  | Pipeline.GE => operator_type Pipeline.OP_GE
  end.

Fixpoint expr_of (e : Pipeline.Expr) : expr_t :=
  match e with
  | Pipeline.INTEGER value => EXPR_INTEGER value
  | Pipeline.IF c t f => EXPR_IF (expr_of c) (expr_of t) (expr_of f)
  | Pipeline.UNARY op a => EXPR_UNARY (unary_type op) (expr_of a)
  | Pipeline.BINARY op a b => EXPR_BINARY (binary_type op) (expr_of a) (expr_of b)
  end.

Definition context_t : Type := Pipeline.Context.

(** The file system: the text of each readable file. *)
Definition files : Type := string -> option string.

Definition scan_init (read : files) (filename : string) : context_t :=
  match Pipeline.init read filename with
  | Pipeline.Ok ctx => ctx
  | Pipeline.Err _ => Pipeline.context_of_source ""
  end.

Definition scan (ctx : context_t) : token_t * context_t :=
  match Pipeline.next_token ctx with
  | (Pipeline.Ok t, ctx') => (token_of t, ctx')
  | (Pipeline.Err _, ctx') => (mk_token (-1) 0 "", ctx')
  end.

Definition parse_expr (ctx : context_t) : expr_t * context_t :=
  match Pipeline.parse_expression ctx with
  | Some (Pipeline.Ok e, ctx') => (expr_of e, ctx')
  | Some (Pipeline.Err _, ctx') => (EXPR_INVALID (-1), ctx')
  | None => (EXPR_INVALID (-1), ctx)
  end.

Definition print_token : token_t -> io unit :=
  print_token TOKEN_INTEGER TOKEN_IDENT token_type_is_keyword token_type_is_operator
    token_type_keyword_name token_type_operator_name assert_diagnostic.

Definition scan_main : nat -> context_t -> io context_t :=
  scan_main context_t TOKEN_EOF TOKEN_INTEGER TOKEN_IDENT token_type_is_keyword
    token_type_is_operator token_type_keyword_name token_type_operator_name
    assert_diagnostic scan.

Definition print_expr : expr_t -> Z -> io unit :=
  print_expr token_type_operator_name assert_diagnostic.

Definition main (read : files) : list string -> io Z :=
  main context_t token_type_operator_name assert_diagnostic (scan_init read) parse_expr.

(** A file system with one file, [prog], holding [1 + 2 * 3]. *)
Definition one_file : files :=
  fun path => if (path =? "prog")%string then Some "1 + 2 * 3" else None.

End Linked.

(* ===================================================================== *)
(** * Facts about the driver                                              *)
(* ===================================================================== *)

(** ** Strings and worlds *)

Lemma string_app_assoc (a b c : string) : ((a ++ b) ++ c = a ++ (b ++ c))%string.
Proof.
  induction a as [| x a IH]; simpl.
  - reflexivity.
  - now rewrite IH.
Qed.

Lemma string_app_empty (a : string) : (a ++ "" = a)%string.
Proof.
  induction a as [| x a IH]; simpl.
  - reflexivity.
  - now rewrite IH.
Qed.

Lemma write_stdout_empty (w : world) : write_stdout "" w = w.
Proof.
  destruct w as [o e c]. unfold write_stdout. simpl.
  now rewrite string_app_empty.
Qed.

Lemma write_stdout_twice (a b : string) (w : world) :
  write_stdout b (write_stdout a w) = write_stdout (a ++ b) w.
Proof.
  unfold write_stdout. simpl. now rewrite string_app_assoc.
Qed.

Lemma repeat_string_succ (s : string) (n : nat) :
  (repeat_string s n ++ s = repeat_string s (S n))%string.
Proof.
  induction n as [| n IH]; simpl.
  - now rewrite string_app_empty.
  - rewrite string_app_assoc. now rewrite IH.
Qed.

Lemma print_indent_loop_run (n : nat) (w : world) :
  print_indent_loop n w = (Returned tt, write_stdout (repeat_string "  " n) w).
Proof.
  revert w. induction n as [| n IH]; intro w.
  - simpl. unfold ret. now rewrite write_stdout_empty.
  - simpl. unfold bind, printf. rewrite IH. now rewrite write_stdout_twice.
Qed.

Lemma print_indent_run (indent : Z) (w : world) :
  print_indent indent w
  = (Returned tt, write_stdout (repeat_string "  " (Z.to_nat indent)) w).
Proof. apply print_indent_loop_run. Qed.

Lemma int_wrap_in_range (z : Z) :
  -2147483648 <= z <= INT_MAX -> int_wrap z = z.
Proof.
  unfold int_wrap, INT_MAX. intro H.
  rewrite Z.mod_small by lia. lia.
Qed.

Lemma modes_run_write_stdout (s : string) (w : world) :
  modes_run (write_stdout s w) = modes_run w.
Proof. reflexivity. Qed.

Lemma modes_run_record (c : call) (w : world) :
  modes_run (record_call c w) = (modes_run w ++ if is_mode c then [c] else [])%list.
Proof.
  unfold modes_run, record_call. simpl. rewrite filter_app. simpl.
  now destruct (is_mode c).
Qed.

Section DriverFacts.

Local Set Warnings "-notation-for-abbreviation".

Variable context_t : Type.
Variables TOKEN_EOF TOKEN_INTEGER TOKEN_IDENT : token_type_t.
Variable token_type_is_keyword : token_type_t -> bool.
Variable token_type_is_operator : token_type_t -> bool.
Variable token_type_keyword_name : token_type_t -> string.
Variable token_type_operator_name : token_type_t -> string.
Variable assert_diagnostic : Z -> string -> string.
Variable scan_init : string -> context_t.
Variable scan : context_t -> token_t * context_t.
Variable parse_expr : context_t -> expr_t * context_t.

Notation print_token :=
  (print_token TOKEN_INTEGER TOKEN_IDENT token_type_is_keyword token_type_is_operator
     token_type_keyword_name token_type_operator_name assert_diagnostic).
Notation scan_main_loop :=
  (scan_main_loop context_t TOKEN_EOF TOKEN_INTEGER TOKEN_IDENT token_type_is_keyword
     token_type_is_operator token_type_keyword_name token_type_operator_name
     assert_diagnostic scan).
Notation scan_main :=
  (scan_main context_t TOKEN_EOF TOKEN_INTEGER TOKEN_IDENT token_type_is_keyword
     token_type_is_operator token_type_keyword_name token_type_operator_name
     assert_diagnostic scan).
Notation classified :=
  (classified TOKEN_EOF TOKEN_INTEGER TOKEN_IDENT token_type_is_keyword
     token_type_is_operator).
Notation scan_iter := (scan_iter context_t scan).
Notation print_expr := (print_expr token_type_operator_name assert_diagnostic).
Notation print_expr_fuel :=
  (print_expr_fuel token_type_operator_name assert_diagnostic).
Notation dump_nodes := (dump_nodes token_type_operator_name).
Notation dump := (dump token_type_operator_name).
Notation parse_main :=
  (parse_main context_t token_type_operator_name assert_diagnostic parse_expr).
Notation main :=
  (main context_t token_type_operator_name assert_diagnostic scan_init parse_expr).

(** ** print_expr *)

Lemma dump_lines_app (a b : list (nat * string)) :
  (dump_lines (a ++ b) = dump_lines a ++ dump_lines b)%string.
Proof.
  induction a as [| x a IH]; simpl.
  - reflexivity.
  - rewrite IH. now rewrite string_app_assoc.
Qed.

Lemma dump_nodes_length (expr : expr_t) (d : nat) :
  well_formed expr = true -> List.length (dump_nodes expr d) = node_count expr.
Proof.
  revert d.
  induction expr as [i | c IHc t IHt e IHe | op a IHa | op a IHa b IHb | n];
    intros d H; simpl in *.
  - reflexivity.
  - apply andb_prop in H as [H He]. apply andb_prop in H as [Hc Ht].
    rewrite !length_app, IHc, IHt, IHe by assumption. lia.
  - now rewrite IHa.
  - apply andb_prop in H as [Ha Hb].
    rewrite !length_app, IHa, IHb by assumption. lia.
  - discriminate.
Qed.

(** The indent of a child, when the nesting stays within [int]. *)
Lemma child_indent (indent : Z) (k : nat) :
  0 <= indent -> indent + Z.of_nat (S k) <= INT_MAX ->
  int_wrap (indent + 1) = indent + 1
  /\ 0 <= indent + 1
  /\ Z.to_nat (indent + 1) = S (Z.to_nat indent).
Proof.
  intros H0 Hmax. unfold INT_MAX in *. repeat split.
  - apply int_wrap_in_range. unfold INT_MAX. lia.
  - lia.
  - lia.
Qed.

Lemma print_expr_run (expr : expr_t) :
  forall (indent : Z) (w : world),
    well_formed expr = true ->
    0 <= indent ->
    indent + Z.of_nat (depth expr) <= INT_MAX ->
    print_expr expr indent w
    = (Returned tt, write_stdout (dump expr (Z.to_nat indent)) w).
Proof.
  unfold dump.
  induction expr as [i | c IHc t IHt e IHe | op a IHa | op a IHa b IHb | n];
    intros indent w Hwf H0 Hmax; simpl in Hwf.
  - simpl. unfold bind, printf. rewrite print_indent_run.
    rewrite write_stdout_twice. unfold dump_line. simpl.
    now rewrite string_app_empty.
  - apply andb_prop in Hwf as [Hwf He]. apply andb_prop in Hwf as [Hc Ht].
    simpl in Hmax.
    destruct (child_indent indent _ H0 Hmax) as (Hw & H1 & Hn).
    simpl. unfold bind, printf. rewrite print_indent_run, Hw.
    rewrite IHc, IHt, IHe by (assumption || lia).
    rewrite Hn, !write_stdout_twice, !dump_lines_app.
    unfold dump_line. simpl. now rewrite !string_app_assoc.
  - simpl in Hmax.
    destruct (child_indent indent _ H0 Hmax) as (Hw & H1 & Hn).
    simpl. unfold bind, printf. rewrite print_indent_run, Hw.
    rewrite IHa by (assumption || lia).
    rewrite Hn, !write_stdout_twice.
    unfold dump_line. simpl. now rewrite !string_app_assoc.
  - apply andb_prop in Hwf as [Ha Hb].
    simpl in Hmax.
    destruct (child_indent indent _ H0 Hmax) as (Hw & H1 & Hn).
    simpl. unfold bind, printf. rewrite print_indent_run, Hw.
    rewrite IHa, IHb by (assumption || lia).
    rewrite Hn, !write_stdout_twice, !dump_lines_app.
    unfold dump_line. simpl. now rewrite !string_app_assoc.
  - discriminate.
Qed.

(** Whatever the tree, [print_expr] writes a text to the standard output;
    it returns when every discriminant is an enumerator, and otherwise is
    aborted by the assertion of its [default] arm. *)
Lemma print_expr_outcome (expr : expr_t) :
  forall (indent : Z) (w : world),
    exists out : string,
      print_expr expr indent w
      = if well_formed expr
        then (Returned tt, write_stdout out w)
        else (Aborted,
              write_stderr (assert_diagnostic 54 "print_expr") (write_stdout out w)).
Proof.
  induction expr as [i | c IHc t IHt e IHe | op a IHa | op a IHa b IHb | n];
    intros indent w; simpl; unfold bind, printf, assert_false;
    rewrite print_indent_run.
  - eexists. now rewrite write_stdout_twice.
  - match goal with |- context [print_expr c ?i ?w'] =>
      destruct (IHc i w') as [o1 E1] end.
    rewrite E1. clear E1.
    destruct (well_formed c); simpl;
      [| eexists; rewrite !write_stdout_twice; reflexivity].
    match goal with |- context [print_expr t ?i ?w'] =>
      destruct (IHt i w') as [o2 E2] end.
    rewrite E2. clear E2.
    destruct (well_formed t); simpl;
      [| eexists; rewrite !write_stdout_twice; reflexivity].
    match goal with |- context [print_expr e ?i ?w'] =>
      destruct (IHe i w') as [o3 E3] end.
    rewrite E3. clear E3.
    destruct (well_formed e); simpl;
      eexists; rewrite !write_stdout_twice; reflexivity.
  - match goal with |- context [print_expr a ?i ?w'] =>
      destruct (IHa i w') as [o1 E1] end.
    rewrite E1. clear E1.
    destruct (well_formed a); simpl;
      eexists; rewrite !write_stdout_twice; reflexivity.
  - match goal with |- context [print_expr a ?i ?w'] =>
      destruct (IHa i w') as [o1 E1] end.
    rewrite E1. clear E1.
    destruct (well_formed a); simpl;
      [| eexists; rewrite !write_stdout_twice; reflexivity].
    match goal with |- context [print_expr b ?i ?w'] =>
      destruct (IHb i w') as [o2 E2] end.
    rewrite E2. clear E2.
    destruct (well_formed b); simpl;
      eexists; rewrite !write_stdout_twice; reflexivity.
  - eexists. reflexivity.
Qed.

Lemma print_expr_fuel_enough (expr : expr_t) :
  forall (fuel : nat) (indent : Z),
    (depth expr < fuel)%nat ->
    print_expr_fuel fuel expr indent = print_expr expr indent.
Proof.
  induction expr as [i | c IHc t IHt e IHe | op a IHa | op a IHa b IHb | n];
    intros [| fuel] indent H; simpl in H; try lia; simpl.
  - reflexivity.
  - rewrite IHc, IHt, IHe by lia. reflexivity.
  - rewrite IHa by lia. reflexivity.
  - rewrite IHa, IHb by lia. reflexivity.
  - reflexivity.
Qed.

Lemma expr_child_acc (expr : expr_t) : Acc expr_child expr.
Proof.
  induction expr as [i | c IHc t IHt e IHe | op a IHa | op a IHa b IHb | n];
    constructor; intros y Hy; unfold expr_child in Hy; simpl in Hy;
    intuition (subst; assumption).
Qed.

(** ** scan_main *)

Lemma print_token_returns (token : token_t) (w : world) :
  (token_type token =? TOKEN_EOF) = false ->
  classified (token_type token) = true ->
  exists line : string, print_token token w = (Returned tt, write_stdout line w).
Proof.
  unfold classified, print_token, printf. intros Heof H. rewrite Heof in H. simpl in H.
  destruct (token_type_is_keyword (token_type token)); [eexists; reflexivity |].
  destruct (token_type_is_operator (token_type token)); [eexists; reflexivity |].
  destruct (token_type token =? TOKEN_INTEGER); [eexists; reflexivity |].
  destruct (token_type token =? TOKEN_IDENT); [eexists; reflexivity |].
  discriminate.
Qed.

Lemma scan_main_loop_no_abort (fuel : nat) :
  forall (ctx : context_t) (w : world),
    (forall n, (n < fuel)%nat ->
       classified (token_type (fst (scan (scan_iter n ctx)))) = true) ->
    fst (scan_main_loop fuel ctx w) <> Aborted.
Proof.
  induction fuel as [| fuel IH]; intros ctx w H.
  - simpl. discriminate.
  - simpl. unfold bind, call_scan, enter, ret. simpl.
    pose proof (H O ltac:(lia)) as H0. simpl in H0.
    destruct (scan ctx) as [token ctx'] eqn:E. simpl in H0.
    destruct (token_type token =? TOKEN_EOF) eqn:Heof.
    + simpl. discriminate.
    + destruct (print_token_returns token (record_call Call_scan w) Heof H0) as [line El].
      rewrite El. apply IH. intros n Hn.
      specialize (H (S n) ltac:(lia)). simpl in H. now rewrite E in H.
Qed.

(** ** main *)

Lemma parse_main_run (ctx : context_t) (w : world) :
  exists out : string,
    parse_main ctx w
    = if well_formed (fst (parse_expr ctx))
      then (Returned (snd (parse_expr ctx)),
            write_stdout out
              (record_call Call_parse_expr (record_call Call_parse_main w)))
      else (Aborted,
            write_stderr (assert_diagnostic 54 "print_expr")
              (write_stdout out
                 (record_call Call_parse_expr (record_call Call_parse_main w)))).
Proof.
  unfold parse_main, bind, enter, call_parse_expr, ret. simpl.
  destruct (parse_expr ctx) as [expr ctx']. simpl.
  destruct (print_expr_outcome expr 0
              (record_call Call_parse_expr (record_call Call_parse_main w))) as [out E].
  rewrite E. exists out. now destruct (well_formed expr).
Qed.

Lemma main_run (argv : list string) (w : world) :
  List.length argv = 2%nat ->
  exists out : string,
    main argv w
    = if well_formed (fst (parse_expr (scan_init (List.nth 1 argv EmptyString))))
      then (Returned 0,
            write_stdout out
              (record_call Call_parse_expr
                 (record_call Call_parse_main
                    (record_call (Call_scan_init (List.nth 1 argv EmptyString)) w))))
      else (Aborted,
            write_stderr (assert_diagnostic 54 "print_expr")
              (write_stdout out
                 (record_call Call_parse_expr
                    (record_call Call_parse_main
                       (record_call (Call_scan_init (List.nth 1 argv EmptyString)) w))))).
Proof.
  intro Hlen. unfold main. rewrite Hlen. simpl.
  unfold bind at 1. unfold call_scan_init, bind, enter, ret. simpl.
  destruct (parse_main_run (scan_init (List.nth 1 argv EmptyString))
              (record_call (Call_scan_init (List.nth 1 argv EmptyString)) w)) as [out E].
  rewrite E. exists out.
  now destruct (well_formed _).
Qed.

Lemma main_usage (argv : list string) (w : world) :
  List.length argv <> 2%nat ->
  main argv w = (Returned 1, write_stderr ("Usage: simplang FILE" ++ newline) w).
Proof.
  intro Hlen. unfold main.
  destruct (Z.of_nat (List.length argv) =? 2) eqn:E.
  - apply Z.eqb_eq in E. lia.
  - reflexivity.
Qed.

(** A node whose discriminant is no enumerator takes the [default] arm. *)
Lemma print_expr_invalid_aborts (type : Z) (indent : Z) (w : world) :
  fst (print_expr (EXPR_INVALID type) indent w) = Aborted.
Proof.
  destruct (print_expr_outcome (EXPR_INVALID type) indent w) as [out E].
  now rewrite E.
Qed.

(** ** The claims about the driver *)

(** C5: a token that is not [TOKEN_EOF] and whose type belongs to one of
    the families is printed by the token dump as exactly one line, the
    same whatever the state of the process: "keyword <name>" for a
    keyword, "operator <name>" for an operator, "integer <value>" in
    decimal for [TOKEN_INTEGER], "identifier <name>" for [TOKEN_IDENT],
    the families being tested in this order; and the loop of [scan_main]
    writes that line and goes on to the next token. *)
Theorem print_token_line (token : token_t) :
  token_type token <> TOKEN_EOF ->
  classified (token_type token) = true ->
  exists text : string,
    (forall w : world,
       print_token token w = (Returned tt, write_stdout (text ++ newline) w))
    /\ (token_type_is_keyword (token_type token) = true ->
        text = "keyword " ++ token_type_keyword_name (token_type token))%string
    /\ (token_type_is_keyword (token_type token) = false ->
        token_type_is_operator (token_type token) = true ->
        text = "operator " ++ token_type_operator_name (token_type token))%string
    /\ (token_type_is_keyword (token_type token) = false ->
        token_type_is_operator (token_type token) = false ->
        token_type token = TOKEN_INTEGER ->
        text = "integer " ++ PRId64 (token_v_i token))%string
    /\ (token_type_is_keyword (token_type token) = false ->
        token_type_is_operator (token_type token) = false ->
        token_type token <> TOKEN_INTEGER ->
        token_type token = TOKEN_IDENT ->
        text = "identifier " ++ token_v_name token)%string
    /\ (forall (ctx ctx' : context_t) (fuel : nat) (w : world),
          scan ctx = (token, ctx') ->
          scan_main_loop (S fuel) ctx w
          = scan_main_loop fuel ctx'
              (write_stdout (text ++ newline) (record_call Call_scan w))).
Proof.
  intros Heof Hcl.
  apply Z.eqb_neq in Heof.
  assert (Hstep : forall text : string,
            (forall w, print_token token w = (Returned tt, write_stdout (text ++ newline) w)) ->
            forall (ctx ctx' : context_t) (fuel : nat) (w : world),
              scan ctx = (token, ctx') ->
              scan_main_loop (S fuel) ctx w
              = scan_main_loop fuel ctx'
                  (write_stdout (text ++ newline) (record_call Call_scan w))).
  { intros text Hp ctx ctx' fuel w E. simpl.
    unfold bind, call_scan, enter, ret. simpl. rewrite E, Heof.
    now rewrite Hp. }
  unfold classified in Hcl. rewrite Heof in Hcl. simpl in Hcl.
  unfold print_token, printf in *.
  destruct (token_type_is_keyword (token_type token)) eqn:Ek.
  { exists ("keyword " ++ token_type_keyword_name (token_type token))%string.
    split; [intro w; simpl; reflexivity |].
    repeat split; try discriminate; try reflexivity.
    apply Hstep. intro w. reflexivity. }
  destruct (token_type_is_operator (token_type token)) eqn:Eo.
  { exists ("operator " ++ token_type_operator_name (token_type token))%string.
    split; [intro w; simpl; reflexivity |].
    repeat split; try discriminate; try reflexivity.
    apply Hstep. intro w. reflexivity. }
  destruct (token_type token =? TOKEN_INTEGER) eqn:Ei.
  { apply Z.eqb_eq in Ei.
    exists ("integer " ++ PRId64 (token_v_i token))%string.
    split; [intro w; simpl; reflexivity |].
    repeat split; try discriminate; try reflexivity.
    - intros _ _ Hne. contradiction.
    - apply Hstep. intro w. reflexivity. }
  destruct (token_type token =? TOKEN_IDENT) eqn:Ed.
  { apply Z.eqb_neq in Ei.
    exists ("identifier " ++ token_v_name token)%string.
    split; [intro w; simpl; reflexivity |].
    repeat split; try discriminate; try reflexivity.
    - intros _ _ He. contradiction.
    - apply Hstep. intro w. reflexivity. }
  discriminate.
Qed.

(** C6: for a tree whose discriminants are all enumerators, printed at an
    indent [0 <= indent] that stays within [int] down to the leaves,
    [print_expr] writes the pre-order dump, one line per node, a node at
    depth [d] after [d] copies of the two-space indent unit: an integer
    node its decimal value, an if node "if" and then condition,
    consequent and alternative one level deeper, a unary or binary node
    the name of its operator and then its one or two children, left to
    right, one level deeper. *)
Theorem print_expr_dump (expr : expr_t) (indent : Z) (w : world) :
  well_formed expr = true ->
  0 <= indent ->
  indent + Z.of_nat (depth expr) <= INT_MAX ->
  print_expr expr indent w
  = (Returned tt, write_stdout (dump expr (Z.to_nat indent)) w)
  /\ List.length (dump_nodes expr (Z.to_nat indent)) = node_count expr
  /\ forall d : nat,
       dump expr d
       = (repeat_string indent_unit d ++
          match expr with
          | EXPR_INTEGER i => PRId64 i ++ newline
          | EXPR_IF condition consequent alternative =>
              "if" ++ newline ++ dump condition (S d)
                ++ dump consequent (S d) ++ dump alternative (S d)
          | EXPR_UNARY op operand =>
              token_type_operator_name op ++ newline ++ dump operand (S d)
          | EXPR_BINARY op left' right' =>
              token_type_operator_name op ++ newline ++ dump left' (S d)
                ++ dump right' (S d)
          | EXPR_INVALID _ => EmptyString
          end)%string.
Proof.
  intros Hwf H0 Hmax. split; [| split].
  - now apply print_expr_run.
  - now apply dump_nodes_length.
  - intro d. unfold dump. destruct expr; simpl in *; try discriminate;
      unfold dump_line; simpl fst; simpl snd;
      rewrite ?dump_lines_app, ?string_app_assoc; reflexivity.
Qed.

(** C7, as the code has it: main runs the parse-and-print mode once when
    it is given exactly one argument, and no mode otherwise; the token
    dump and the evaluation are never run. *)
Theorem main_runs_parse_mode (argv : list string) (w : world) :
  modes_run (snd (main argv w))
  = (modes_run w ++ if (List.length argv =? 2)%nat then [Call_parse_main] else [])%list.
Proof.
  destruct (List.length argv =? 2)%nat eqn:E.
  - apply Nat.eqb_eq in E. destruct (main_run argv w E) as [out Em].
    rewrite Em.
    destruct (well_formed _); simpl;
      unfold modes_run, write_stderr, write_stdout, record_call; simpl;
      rewrite !filter_app; simpl; now rewrite !app_nil_r.
  - apply Nat.eqb_neq in E. rewrite (main_usage argv w E). simpl.
    now rewrite app_nil_r.
Qed.

(** C8: [print_expr] returns, without reaching [assert(false)], on every
    tree whose discriminants are all among the four enumerators; and
    [scan_main] does not reach [assert(false)] when every token that
    [scan] hands it is [TOKEN_EOF], a keyword, an operator,
    [TOKEN_INTEGER] or [TOKEN_IDENT]. *)
Theorem assert_false_unreachable
  (expr : expr_t) (indent : Z) (ctx : context_t) (fuel : nat) (w : world) :
  well_formed expr = true ->
  (forall n, (n < fuel)%nat ->
     classified (token_type (fst (scan (scan_iter n ctx)))) = true) ->
  fst (print_expr expr indent w) = Returned tt
  /\ fst (scan_main fuel ctx w) <> Aborted.
Proof.
  intros Hwf Hcl. split.
  - destruct (print_expr_outcome expr indent w) as [out E].
    rewrite E, Hwf. reflexivity.
  - unfold scan_main, bind, enter. simpl.
    now apply scan_main_loop_no_abort.
Qed.

(** C9: with an argument count other than two, main writes the usage
    line to the standard error and returns 1, having called nothing;
    with exactly one argument it calls [scan_init] on that path first,
    then the parser, and returns 0 (the tree that [parse_expr] hands
    back being one that [print_expr] can print). *)
Theorem main_exit_status (argv : list string) (w : world) :
  (List.length argv <> 2%nat ->
   main argv w = (Returned 1, write_stderr ("Usage: simplang FILE" ++ newline) w))
  /\ (List.length argv = 2%nat ->
      well_formed (fst (parse_expr (scan_init (List.nth 1 argv EmptyString)))) = true ->
      fst (main argv w) = Returned 0
      /\ calls (snd (main argv w))
         = (calls w ++ [Call_scan_init (List.nth 1 argv EmptyString);
                        Call_parse_main; Call_parse_expr])%list
      /\ stderr (snd (main argv w)) = stderr w).
Proof.
  split.
  - apply main_usage.
  - intros Hlen Hwf. destruct (main_run argv w Hlen) as [out E].
    rewrite E, Hwf. simpl. repeat split.
    now rewrite <- !app_assoc.
Qed.

(** C10: [print_expr] terminates: its recursive calls are on children of
    the node, a well-founded relation, so that one unit of fuel per
    level of the tree is enough at any indent, and the result is never
    the one of a call that ran out of fuel. *)
Theorem print_expr_terminates :
  well_founded expr_child
  /\ forall (expr : expr_t) (indent : Z) (w : world) (k : nat),
       print_expr_fuel (S (depth expr) + k) expr indent w = print_expr expr indent w
       /\ fst (print_expr expr indent w) <> OutOfFuel.
Proof.
  split.
  - intro expr. apply expr_child_acc.
  - intros expr indent w k. split.
    + rewrite print_expr_fuel_enough by lia. reflexivity.
    + destruct (print_expr_outcome expr indent w) as [out E]. rewrite E.
      simpl. destruct (well_formed expr); discriminate.
Qed.

End DriverFacts.

(* ===================================================================== *)
(** * Facts about the modelled pipeline                                   *)
(* ===================================================================== *)

Module PipelineFacts.

Import Pipeline.
Local Open Scope nat_scope.

(** ** Lexer *)

Lemma span_length (p : ascii -> bool) (s : list ascii) :
  List.length s = List.length (fst (span p s)) + List.length (snd (span p s)).
Proof.
  induction s as [| c s IH]; simpl.
  - reflexivity.
  - destruct (p c); simpl.
    + destruct (span p s) as [run rest]. simpl in *. lia.
    + reflexivity.
Qed.

Lemma span_consumes (p : ascii -> bool) (c : ascii) (s : list ascii) :
  p c = true -> List.length (snd (span p (c :: s))) < List.length (c :: s).
Proof.
  intro H. pose proof (span_length p (c :: s)) as L.
  simpl in *. rewrite H in *. destruct (span p s) as [run rest]. simpl in *. lia.
Qed.

Lemma skip_whitespace_length (s : list ascii) :
  forall pos ln,
    List.length (fst (fst (skip_whitespace s pos ln))) <= List.length s.
Proof.
  induction s as [| c s IH]; intros pos ln; simpl.
  - lia.
  - destruct (is_space c).
    + specialize (IH (S pos) (if is_newline c then S ln else ln)). lia.
    + simpl. lia.
Qed.

(** Skipping whitespace twice skips nothing more. *)
Lemma skip_whitespace_again (s : list ascii) :
  forall pos ln s' pos' ln',
    skip_whitespace s pos ln = (s', pos', ln') ->
    skip_whitespace s' pos' ln' = (s', pos', ln').
Proof.
  induction s as [| c s IH]; intros pos ln s' pos' ln' H; simpl in H.
  - inversion H. reflexivity.
  - destruct (is_space c) eqn:E.
    + eapply IH. eassumption.
    + inversion H. subst. simpl. now rewrite E.
Qed.

Lemma lex_operator_width (s : list ascii) (o : Operator) (n : nat) :
  lex_operator s = Some (o, n) -> 1 <= n /\ n <= List.length s.
Proof.
  unfold lex_operator. destruct s as [| c [| d rest]]; intro H.
  - discriminate.
  - destruct (one_char_operator c); inversion H. simpl. lia.
  - destruct (two_char_operator c d).
    + inversion H. simpl. lia.
    + destruct (one_char_operator c); inversion H. simpl. lia.
Qed.

(** A call that starts where whitespace has been skipped gives the same
    answer as the call that skipped it. *)
Lemma next_token_after_skip (ctx : Context) (s : list ascii) (pos ln : nat) :
  skip_whitespace (input ctx) (position ctx) (line ctx) = (s, pos, ln) ->
  next_token (mk_context s pos ln (current ctx)) = next_token ctx.
Proof.
  intro H. unfold next_token. simpl.
  rewrite (skip_whitespace_again _ _ _ _ _ _ H), H. reflexivity.
Qed.

Lemma next_token_eof_here (ctx ctx' : Context) :
  next_token ctx = (Ok TOKEN_EOF, ctx') ->
  input ctx' = [] /\ next_token ctx' = (Ok TOKEN_EOF, ctx').
Proof.
  intro H. pose proof H as H'.
  destruct (skip_whitespace (input ctx) (position ctx) (line ctx)) as [[s pos] ln] eqn:E.
  pose proof (next_token_after_skip ctx s pos ln E) as A.
  unfold next_token in H. rewrite E in H.
  destruct s as [| c s].
  - inversion H. subst ctx'. split; [reflexivity |]. now rewrite A.
  - destruct (is_digit c).
    + destruct (span is_digit (c :: s)) as [digits rest].
      destruct (Z.leb _ _); inversion H.
    + destruct (is_letter c).
      * destruct (span is_letter_or_digit (c :: s)) as [word rest].
        destruct (keyword_of _); inversion H.
      * destruct (lex_operator (c :: s)) as [[o n] |]; inversion H.
Qed.

Lemma next_token_error_here (ctx ctx' : Context) (e : LexError) :
  next_token ctx = (Err e, ctx') -> next_token ctx' = (Err e, ctx').
Proof.
  intro H. pose proof H as H'.
  destruct (skip_whitespace (input ctx) (position ctx) (line ctx)) as [[s pos] ln] eqn:E.
  pose proof (next_token_after_skip ctx s pos ln E) as A.
  unfold next_token in H. rewrite E in H.
  destruct s as [| c s].
  - inversion H.
  - destruct (is_digit c).
    + destruct (span is_digit (c :: s)) as [digits rest].
      destruct (Z.leb _ _); inversion H. subst. now rewrite A.
    + destruct (is_letter c).
      * destruct (span is_letter_or_digit (c :: s)) as [word rest].
        inversion H.
      * destruct (lex_operator (c :: s)) as [[o n] |]; inversion H.
        subst. now rewrite A.
Qed.

(** The cursor never moves back, and it moves forward past every token
    but [TOKEN_EOF]; the lookahead is left alone. *)
Lemma next_token_progress (ctx ctx' : Context) (t : Token) :
  next_token ctx = (Ok t, ctx') ->
  List.length (input ctx') <= List.length (input ctx)
  /\ (t <> TOKEN_EOF -> List.length (input ctx') < List.length (input ctx))
  /\ current ctx' = current ctx.
Proof.
  intro H.
  pose proof (skip_whitespace_length (input ctx) (position ctx) (line ctx)) as L.
  unfold next_token in H.
  destruct (skip_whitespace (input ctx) (position ctx) (line ctx)) as [[s pos] ln].
  simpl in L.
  destruct s as [| c s].
  - inversion H. subst. simpl. repeat split; try lia. congruence.
  - destruct (is_digit c) eqn:Ed.
    + pose proof (span_consumes is_digit c s Ed) as C.
      destruct (span is_digit (c :: s)) as [digits rest].
      destruct (Z.leb _ _); inversion H. subst. simpl in *.
      repeat split; lia.
    + destruct (is_letter c) eqn:El.
      * assert (Ha : is_letter_or_digit c = true)
          by (unfold is_letter_or_digit; now rewrite El).
        pose proof (span_consumes is_letter_or_digit c s Ha) as C.
        destruct (span is_letter_or_digit (c :: s)) as [word rest].
        inversion H. subst. simpl in *. repeat split; lia.
      * destruct (lex_operator (c :: s)) as [[o n] |] eqn:Eo; inversion H.
        subst. apply lex_operator_width in Eo.
        cbn [input current]. rewrite length_skipn.
        repeat split; lia.
Qed.

(** ** Parser actions *)

Local Open Scope parser_scope.

Lemma and_then_ok {A B} (p : parser A) (k : A -> parser B) ctx b ctx' :
  and_then p k ctx = Some (Ok b, ctx') ->
  exists a ctx1, p ctx = Some (Ok a, ctx1) /\ k a ctx1 = Some (Ok b, ctx').
Proof.
  unfold and_then. destruct (p ctx) as [[[a | e] ctx1] |]; intro H.
  - exists a, ctx1. now split.
  - discriminate.
  - discriminate.
Qed.

Lemma and_then_returns {A B} (p : parser A) (k : A -> parser B) ctx :
  returns p ctx ->
  (forall a ctx1, p ctx = Some (Ok a, ctx1) -> returns (k a) ctx1) ->
  returns (and_then p k) ctx.
Proof.
  intros (r & ctx1 & E) K. unfold returns, and_then. rewrite E.
  destruct r as [a | e].
  - now apply K.
  - now exists (Err e), ctx1.
Qed.

Lemma pure_returns {A} (a : A) ctx : returns (pure a) ctx.
Proof. now exists (Ok a), ctx. Qed.

Lemma unexpected_returns {A} t p ctx : returns (@unexpected A t p) ctx.
Proof. now exists (Err (ParseFailure (UnexpectedToken t p))), ctx. Qed.

Lemma input_le_remaining ctx : List.length (input ctx) <= remaining ctx.
Proof. unfold remaining. lia. Qed.

Lemma remaining_loaded ctx t :
  current ctx = Some t -> t <> TOKEN_EOF ->
  remaining ctx = S (List.length (input ctx)).
Proof.
  unfold remaining. intros -> H. destruct t; try lia. contradiction.
Qed.

Lemma remaining_set_current t ctx :
  remaining (set_current t ctx)
  = List.length (input ctx) + match t with TOKEN_EOF => 0 | _ => 1 end.
Proof. unfold remaining, set_current. simpl. now destruct t. Qed.

Lemma fetch_bound ctx t ctx' :
  next_token ctx = (Ok t, ctx') ->
  remaining (set_current t ctx') <= List.length (input ctx).
Proof.
  intro H. apply next_token_progress in H as (Hle & Hlt & _).
  rewrite remaining_set_current.
  destruct t; try (assert (List.length (input ctx') < List.length (input ctx))
                     by (apply Hlt; discriminate); lia).
  lia.
Qed.

Lemma advance_returns ctx : returns advance ctx.
Proof.
  unfold returns, advance. destruct (next_token ctx) as [[t | e] ctx']; eauto.
Qed.

Lemma advance_ok ctx u ctx' :
  advance ctx = Some (Ok u, ctx') -> remaining ctx' <= List.length (input ctx).
Proof.
  unfold advance. destruct (next_token ctx) as [[t | e] ctx1] eqn:E; intro H;
    inversion H; subst.
  now apply fetch_bound.
Qed.

Lemma current_token_returns ctx : returns current_token ctx.
Proof.
  unfold returns, current_token. destruct (current ctx); eauto.
  destruct (next_token ctx) as [[t | e] ctx']; eauto.
Qed.

Lemma current_token_ok ctx t ctx' :
  current_token ctx = Some (Ok t, ctx') ->
  current ctx' = Some t /\ remaining ctx' <= remaining ctx.
Proof.
  unfold current_token. destruct (current ctx) as [t0 |] eqn:C; intro H.
  - inversion H. subst. split; [assumption | lia].
  - destruct (next_token ctx) as [[t1 | e] ctx1] eqn:E; inversion H; subst.
    split; [reflexivity |].
    pose proof (fetch_bound _ _ _ E). pose proof (input_le_remaining ctx). lia.
Qed.

(** Consuming a token that is not [TOKEN_EOF] leaves strictly less. *)
Lemma consume_ok ctx t ctx1 u ctx2 :
  current_token ctx = Some (Ok t, ctx1) ->
  t <> TOKEN_EOF ->
  advance ctx1 = Some (Ok u, ctx2) ->
  remaining ctx2 < remaining ctx.
Proof.
  intros Hc Ht Ha. apply current_token_ok in Hc as [Hcur Hle].
  apply advance_ok in Ha. rewrite (remaining_loaded _ _ Hcur Ht) in Hle. lia.
Qed.

Lemma expect_else_returns ctx : returns expect_else ctx.
Proof.
  unfold expect_else. apply and_then_returns.
  - apply current_token_returns.
  - intros t ctx1 _. destruct t as [[] | | | |];
      (apply advance_returns || apply unexpected_returns).
Qed.

Lemma expect_else_ok ctx u ctx' :
  expect_else ctx = Some (Ok u, ctx') -> remaining ctx' < remaining ctx.
Proof.
  unfold expect_else. intro H. apply and_then_ok in H as (t & ctx1 & Hc & H).
  destruct t as [[] | | | |]; try discriminate.
  eapply consume_ok; eauto. discriminate.
Qed.

Lemma expect_rparen_returns ctx : returns expect_rparen ctx.
Proof.
  unfold expect_rparen. apply and_then_returns.
  - apply current_token_returns.
  - intros t ctx1 _. destruct t as [| [] | | |];
      (apply advance_returns || apply unexpected_returns).
Qed.

Lemma expect_rparen_ok ctx u ctx' :
  expect_rparen ctx = Some (Ok u, ctx') -> remaining ctx' < remaining ctx.
Proof.
  unfold expect_rparen. intro H. apply and_then_ok in H as (t & ctx1 & Hc & H).
  destruct t as [| [] | | |]; try discriminate.
  eapply consume_ok; eauto. discriminate.
Qed.

Lemma binary_operator_not_eof t op prec :
  binary_operator t = Some (op, prec) -> t <> TOKEN_EOF.
Proof. intros H ->. discriminate. Qed.

Lemma unary_operator_not_eof t op :
  unary_operator t = Some op -> t <> TOKEN_EOF.
Proof. intros H ->. discriminate. Qed.

(** ** The parser consumes, and so it ends *)

Ltac parser_step H :=
  let a := fresh "a" in
  let c := fresh "ctx" in
  let E := fresh "E" in
  apply and_then_ok in H as (a & c & E & H).

Ltac pure_inv H := unfold pure in H; inversion H; subst; clear H.

(** A successful parse never hands back more input than it was given. *)
Lemma parse_shrinks (fuel : nat) :
  (forall ctx e ctx',
     parse_expr fuel ctx = Some (Ok e, ctx') -> remaining ctx' <= remaining ctx)
  /\ (forall min_prec ctx e ctx',
        parse_binary fuel min_prec ctx = Some (Ok e, ctx') ->
        remaining ctx' <= remaining ctx)
  /\ (forall min_prec lhs ctx e ctx',
        parse_binary_rest fuel min_prec lhs ctx = Some (Ok e, ctx') ->
        remaining ctx' <= remaining ctx)
  /\ (forall ctx e ctx',
        parse_unary fuel ctx = Some (Ok e, ctx') -> remaining ctx' <= remaining ctx)
  /\ (forall ctx e ctx',
        parse_primary fuel ctx = Some (Ok e, ctx') -> remaining ctx' <= remaining ctx).
Proof.
  induction fuel as [| fuel (IHe & IHb & IHr & IHu & IHp)].
  - repeat split; intros; discriminate.
  - repeat split.
    + intros ctx e ctx' H. simpl in H. parser_step H.
      assert (Hb : forall c1 c2 x,
                 parse_binary fuel 0 c1 = Some (Ok x, c2) ->
                 current_token ctx = Some (Ok a, c1) ->
                 remaining c2 <= remaining ctx).
      { intros c1 c2 x Hp Hc. apply IHb in Hp.
        apply current_token_ok in Hc as [_ Hc]. lia. }
      destruct a as [[] | | | |]; try (eapply Hb; eassumption).
      parser_step H. parser_step H. parser_step H. parser_step H. parser_step H.
      pure_inv H.
      pose proof (consume_ok _ _ _ _ _ E ltac:(discriminate) E0).
      apply IHe in E1, E2, E4. apply expect_else_ok in E3. lia.
    + intros min_prec ctx e ctx' H. simpl in H. parser_step H.
      apply IHu in E. apply IHr in H. lia.
    + intros min_prec lhs ctx e ctx' H. simpl in H. parser_step H.
      pose proof (current_token_ok _ _ _ E) as [_ Hle].
      destruct (binary_operator a) as [[op prec] |] eqn:Eop.
      * destruct (min_prec <=? prec).
        -- parser_step H. parser_step H.
           pose proof (consume_ok _ _ _ _ _ E (binary_operator_not_eof _ _ _ Eop) E0).
           apply IHb in E1. apply IHr in H. lia.
        -- pure_inv H. lia.
      * pure_inv H. lia.
    + intros ctx e ctx' H. simpl in H. parser_step H.
      pose proof (current_token_ok _ _ _ E) as [_ Hle].
      destruct (unary_operator a) as [op |] eqn:Eop.
      * parser_step H. parser_step H. pure_inv H.
        pose proof (consume_ok _ _ _ _ _ E (unary_operator_not_eof _ _ Eop) E0).
        apply IHu in E1. lia.
      * apply IHp in H. lia.
    + intros ctx e ctx' H. simpl in H. parser_step H.
      destruct a as [| [] | | |]; try discriminate.
      * parser_step H. parser_step H. parser_step H. pure_inv H.
        pose proof (consume_ok _ _ _ _ _ E ltac:(discriminate) E0).
        apply IHe in E1. apply expect_rparen_ok in E2. lia.
      * parser_step H. pure_inv H.
        pose proof (consume_ok _ _ _ _ _ E ltac:(discriminate) E0). lia.
Qed.

(** With four units of fuel for each token still to come, and a few for
    the grammar levels, every rule ends. *)
Lemma parse_returns (fuel : nat) :
  (forall ctx, 4 * remaining ctx + 5 <= fuel -> returns (parse_expr fuel) ctx)
  /\ (forall min_prec ctx,
        4 * remaining ctx + 4 <= fuel -> returns (parse_binary fuel min_prec) ctx)
  /\ (forall min_prec lhs ctx,
        4 * remaining ctx + 1 <= fuel ->
        returns (parse_binary_rest fuel min_prec lhs) ctx)
  /\ (forall ctx, 4 * remaining ctx + 3 <= fuel -> returns (parse_unary fuel) ctx)
  /\ (forall ctx, 4 * remaining ctx + 2 <= fuel -> returns (parse_primary fuel) ctx).
Proof.
  induction fuel as [| fuel (IHe & IHb & IHr & IHu & IHp)].
  - repeat split; intros; lia.
  - destruct (parse_shrinks fuel) as (She & Shb & Shr & Shu & Shp).
    repeat split.
    + intros ctx Hf. simpl. apply and_then_returns; [apply current_token_returns |].
      intros t c1 Hc.
      assert (Hb : returns (parse_binary fuel 0) c1).
      { apply IHb. apply current_token_ok in Hc as [_ Hc]. lia. }
      destruct t as [[] | | | |]; try exact Hb.
      apply and_then_returns; [apply advance_returns |].
      intros u c2 Ha.
      pose proof (consume_ok _ _ _ _ _ Hc ltac:(discriminate) Ha).
      apply and_then_returns; [apply IHe; lia |].
      intros x1 c3 H1. apply She in H1.
      apply and_then_returns; [apply IHe; lia |].
      intros x2 c4 H2. apply She in H2.
      apply and_then_returns; [apply expect_else_returns |].
      intros u' c5 H3. apply expect_else_ok in H3.
      apply and_then_returns; [apply IHe; lia |].
      intros x3 c6 H4. apply pure_returns.
    + intros min_prec ctx Hf. simpl.
      apply and_then_returns; [apply IHu; lia |].
      intros lhs c1 H1. apply Shu in H1. apply IHr. lia.
    + intros min_prec lhs ctx Hf. simpl.
      apply and_then_returns; [apply current_token_returns |].
      intros t c1 Hc.
      destruct (binary_operator t) as [[op prec] |] eqn:Eop; [| apply pure_returns].
      destruct (min_prec <=? prec); [| apply pure_returns].
      apply and_then_returns; [apply advance_returns |].
      intros u c2 Ha.
      pose proof (consume_ok _ _ _ _ _ Hc (binary_operator_not_eof _ _ _ Eop) Ha).
      apply and_then_returns; [apply IHb; lia |].
      intros rhs c3 H1. apply Shb in H1. apply IHr. lia.
    + intros ctx Hf. simpl.
      apply and_then_returns; [apply current_token_returns |].
      intros t c1 Hc.
      destruct (unary_operator t) as [op |] eqn:Eop.
      * apply and_then_returns; [apply advance_returns |].
        intros u c2 Ha.
        pose proof (consume_ok _ _ _ _ _ Hc (unary_operator_not_eof _ _ Eop) Ha).
        apply and_then_returns; [apply IHu; lia |].
        intros x c3 _. apply pure_returns.
      * apply IHp. apply current_token_ok in Hc as [_ Hc]. lia.
    + intros ctx Hf. simpl.
      apply and_then_returns; [apply current_token_returns |].
      intros t c1 Hc.
      destruct t as [| [] | | |]; try apply unexpected_returns.
      * apply and_then_returns; [apply advance_returns |].
        intros u c2 Ha.
        pose proof (consume_ok _ _ _ _ _ Hc ltac:(discriminate) Ha).
        apply and_then_returns; [apply IHe; lia |].
        intros x c3 H1.
        apply and_then_returns; [apply expect_rparen_returns |].
        intros u' c4 _. apply pure_returns.
      * apply and_then_returns; [apply advance_returns |].
        intros u c2 _. apply pure_returns.
Qed.

(** ** Errors pass through the parser unchanged *)

Lemma and_then_faithful {A B} (p : parser A) (k : A -> parser B) :
  faithful p -> (forall a, faithful (k a)) -> faithful (and_then p k).
Proof.
  intros Hp Hk ctx x ctx'. unfold and_then.
  destruct (p ctx) as [[[a | e] ctx1] |] eqn:E; intro H.
  - eapply Hk. eassumption.
  - inversion H. subst. eapply Hp. eassumption.
  - discriminate.
Qed.

Lemma pure_faithful {A} (a : A) : faithful (pure a).
Proof. intros ctx x ctx' H. discriminate. Qed.

Lemma current_token_faithful : faithful current_token.
Proof.
  intros ctx x ctx'. unfold current_token.
  destruct (current ctx); [discriminate |].
  destruct (next_token ctx) as [[t | e] ctx1] eqn:E; intro H; inversion H; subst.
  simpl. eapply next_token_error_here. eassumption.
Qed.

Lemma advance_faithful : faithful advance.
Proof.
  intros ctx x ctx'. unfold advance.
  destruct (next_token ctx) as [[t | e] ctx1] eqn:E; intro H; inversion H; subst.
  simpl. eapply next_token_error_here. eassumption.
Qed.

(** After a look at the current token, the rule that follows may fail on
    it, or do something faithful. *)
Lemma look_faithful {A} (k : Token -> parser A) :
  (forall t ctx,
     current ctx = Some t ->
     forall x ctx', k t ctx = Some (Err x, ctx') -> surfaced x ctx') ->
  faithful (and_then current_token k).
Proof.
  intros Hk ctx x ctx'. unfold and_then.
  destruct (current_token ctx) as [[[t | e] ctx1] |] eqn:E; intro H.
  - apply current_token_ok in E as [Hc _]. eapply Hk; eassumption.
  - inversion H. subst. eapply current_token_faithful. eassumption.
  - discriminate.
Qed.

Lemma unexpected_surfaced {A} t p ctx x ctx' :
  current ctx = Some t ->
  @unexpected A t p ctx = Some (Err x, ctx') -> surfaced x ctx'.
Proof. intros Hc H. inversion H. subst. exact Hc. Qed.

Lemma expect_else_faithful : faithful expect_else.
Proof.
  unfold expect_else. apply look_faithful. intros t ctx Hc x ctx' H.
  destruct t as [[] | | | |];
    first [eapply unexpected_surfaced; eassumption
          | eapply advance_faithful; eassumption].
Qed.

Lemma expect_rparen_faithful : faithful expect_rparen.
Proof.
  unfold expect_rparen. apply look_faithful. intros t ctx Hc x ctx' H.
  destruct t as [| [] | | |];
    first [eapply unexpected_surfaced; eassumption
          | eapply advance_faithful; eassumption].
Qed.

Ltac faithful_chain :=
  repeat first
    [ apply pure_faithful
    | apply advance_faithful
    | apply expect_else_faithful
    | apply expect_rparen_faithful
    | assumption
    | match goal with H : forall _, faithful _ |- _ => apply H end
    | match goal with H : forall _ _, faithful _ |- _ => apply H end
    | apply and_then_faithful; [| intro] ].

Lemma parse_faithful (fuel : nat) :
  faithful (parse_expr fuel)
  /\ (forall min_prec, faithful (parse_binary fuel min_prec))
  /\ (forall min_prec lhs, faithful (parse_binary_rest fuel min_prec lhs))
  /\ faithful (parse_unary fuel)
  /\ faithful (parse_primary fuel).
Proof.
  induction fuel as [| fuel (IHe & IHb & IHr & IHu & IHp)].
  - repeat split; repeat intro; discriminate.
  - split; [| split; [| split; [| split]]];
      try intro min_prec; try intro lhs; simpl;
      [| faithful_chain | | |];
      apply look_faithful; intros t ctx Hc x ctx' H.
    + destruct t as [[] | | | |];
        try (eapply IHb; eassumption).
      revert ctx x ctx' H Hc.
      match goal with |- forall ctx x ctx', ?p ctx = _ -> _ -> _ =>
        assert (F : faithful p) by faithful_chain end.
      intros ctx x ctx' H _. eapply F. eassumption.
    + destruct (binary_operator t) as [[op prec] |]; [| discriminate].
      destruct (min_prec <=? prec); [| discriminate].
      revert ctx x ctx' H Hc.
      match goal with |- forall ctx x ctx', ?p ctx = _ -> _ -> _ =>
        assert (F : faithful p) by faithful_chain end.
      intros ctx x ctx' H _. eapply F. eassumption.
    + destruct (unary_operator t) as [op |]; [| eapply IHp; eassumption].
      revert ctx x ctx' H Hc.
      match goal with |- forall ctx x ctx', ?p ctx = _ -> _ -> _ =>
        assert (F : faithful p) by faithful_chain end.
      intros ctx x ctx' H _. eapply F. eassumption.
    + destruct t as [| [] | | |];
        try (eapply unexpected_surfaced; eassumption).
      * revert ctx x ctx' H Hc.
        match goal with |- forall ctx x ctx', ?p ctx = _ -> _ -> _ =>
          assert (F : faithful p) by faithful_chain end.
        intros ctx x ctx' H _. eapply F. eassumption.
      * revert ctx x ctx' H Hc.
        match goal with |- forall ctx x ctx', ?p ctx = _ -> _ -> _ =>
          assert (F : faithful p) by faithful_chain end.
        intros ctx x ctx' H _. eapply F. eassumption.
Qed.

(** ** The parser does what the rules say *)

Lemma and_then_cases {A B} (p : parser A) (k : A -> parser B) ctx r ctx' :
  and_then p k ctx = Some (r, ctx') ->
  (exists x, p ctx = Some (Err x, ctx') /\ r = Err x)
  \/ (exists a c1, p ctx = Some (Ok a, c1) /\ k a c1 = Some (r, ctx')).
Proof.
  unfold and_then. destruct (p ctx) as [[[a | x] c1] |]; intro H.
  - right. eauto.
  - left. inversion H. eauto.
  - discriminate.
Qed.

Lemma current_token_looks ctx r ctx' :
  current_token ctx = Some (r, ctx') -> looks ctx r ctx'.
Proof.
  unfold current_token, looks. destruct (current ctx).
  - intro H. inversion H. now split.
  - destruct (next_token ctx) as [[t | e] c]; intro H; inversion H; now split.
Qed.

Lemma advance_fetches ctx r ctx' :
  advance ctx = Some (r, ctx') -> fetches ctx r ctx'.
Proof.
  unfold advance, fetches.
  destruct (next_token ctx) as [[t | e] c]; intro H; inversion H; now split.
Qed.

Lemma expect_else_expects ctx r ctx' :
  expect_else ctx = Some (r, ctx') ->
  expects (TOKEN_KEYWORD KW_ELSE) PROD_IF ctx r ctx'.
Proof.
  unfold expect_else. intro H.
  apply and_then_cases in H as [(x & E & ->) | (t & c1 & E & H)];
    apply current_token_looks in E.
  - now apply expects_look_fails.
  - destruct t as [[] | | | |];
      try (inversion H; subst; apply expects_other; [assumption | discriminate]).
    apply advance_fetches in H. eapply expects_wanted; eassumption.
Qed.

Lemma expect_rparen_expects ctx r ctx' :
  expect_rparen ctx = Some (r, ctx') ->
  expects (TOKEN_OPERATOR OP_RPAREN) PROD_PAREN ctx r ctx'.
Proof.
  unfold expect_rparen. intro H.
  apply and_then_cases in H as [(x & E & ->) | (t & c1 & E & H)];
    apply current_token_looks in E.
  - now apply expects_look_fails.
  - destruct t as [| [] | | |];
      try (inversion H; subst; apply expects_other; [assumption | discriminate]).
    apply advance_fetches in H. eapply expects_wanted; eassumption.
Qed.

Create HintDb grammar.

#[local] Hint Constructors spec_expr spec_if spec_binary spec_rest spec_unary
  spec_primary : grammar.

#[local] Hint Extern 1 (_ <> _) => discriminate : grammar.

#[local] Hint Extern 1 (forall _, _ <> _) => intro; discriminate : grammar.

(** One step of a rule: it failed, and the rule with it, or it gave a
    value and the rule goes on. *)
Ltac rule_step H :=
  let x := fresh "x" in
  let a := fresh "a" in
  let c := fresh "c" in
  let E := fresh "E" in
  apply and_then_cases in H as [(x & E & ->) | (a & c & E & H)].

Ltac to_spec :=
  repeat match goal with
         | H : current_token _ = Some _ |- _ => apply current_token_looks in H
         | H : advance _ = Some (_, _) |- _ => apply advance_fetches in H
         | H : expect_else _ = Some _ |- _ => apply expect_else_expects in H
         | H : expect_rparen _ = Some _ |- _ => apply expect_rparen_expects in H
         | H : pure _ _ = Some _ |- _ => unfold pure in H; inversion H; subst; clear H
         | H : unexpected _ _ _ = Some _ |- _ =>
             unfold unexpected, fail in H; inversion H; subst; clear H
         | u : unit |- _ => destruct u
         end.

Lemma parse_sound (fuel : nat) :
  (forall ctx r ctx',
     parse_expr fuel ctx = Some (r, ctx') -> spec_expr ctx r ctx')
  /\ (forall min_prec ctx r ctx',
        parse_binary fuel min_prec ctx = Some (r, ctx') ->
        spec_binary min_prec ctx r ctx')
  /\ (forall min_prec lhs ctx r ctx',
        parse_binary_rest fuel min_prec lhs ctx = Some (r, ctx') ->
        spec_rest min_prec lhs ctx r ctx')
  /\ (forall ctx r ctx',
        parse_unary fuel ctx = Some (r, ctx') -> spec_unary ctx r ctx')
  /\ (forall ctx r ctx',
        parse_primary fuel ctx = Some (r, ctx') -> spec_primary ctx r ctx').
Proof.
  induction fuel as [| fuel (IHe & IHb & IHr & IHu & IHp)].
  - repeat split; intros; discriminate.
  - split; [| split; [| split; [| split]]].
    + intros ctx r ctx' H. simpl in H.
      rule_step H; [to_spec; eauto with grammar |].
      destruct a as [[] | | | |];
        try (apply IHb in H; to_spec; eauto with grammar).
      rule_step H; [to_spec; eauto 7 with grammar |].
      rule_step H; [apply IHe in E1; to_spec; eauto 7 with grammar |].
      rule_step H; [apply IHe in E1, E2; to_spec; eauto 7 with grammar |].
      rule_step H; [apply IHe in E1, E2; to_spec; eauto 7 with grammar |].
      rule_step H; [apply IHe in E1, E2, E4; to_spec; eauto 8 with grammar |].
      apply IHe in E1, E2, E4. to_spec. eauto 8 with grammar.
    + intros min_prec ctx r ctx' H. simpl in H.
      rule_step H; [apply IHu in E; eauto with grammar |].
      apply IHu in E. apply IHr in H. eauto with grammar.
    + intros min_prec lhs ctx r ctx' H. simpl in H.
      rule_step H; [to_spec; eauto with grammar |].
      destruct (binary_operator a) as [[op prec] |] eqn:Eop;
        [| to_spec; eauto with grammar].
      destruct (min_prec <=? prec) eqn:Ele.
      * apply Nat.leb_le in Ele.
        rule_step H; [to_spec; eauto with grammar |].
        rule_step H; [apply IHb in E1; to_spec; eauto 7 with grammar |].
        apply IHb in E1. apply IHr in H. to_spec. eauto 8 with grammar.
      * apply Nat.leb_gt in Ele. to_spec. eauto with grammar.
    + intros ctx r ctx' H. simpl in H.
      rule_step H; [to_spec; eauto with grammar |].
      destruct (unary_operator a) as [op |] eqn:Eop.
      * rule_step H; [to_spec; eauto with grammar |].
        rule_step H; [apply IHu in E1; to_spec; eauto 7 with grammar |].
        apply IHu in E1. to_spec. eauto 7 with grammar.
      * apply IHp in H. to_spec. eauto with grammar.
    + intros ctx r ctx' H. simpl in H.
      rule_step H; [to_spec; eauto with grammar |].
      destruct a as [| [] | | |];
        try (to_spec; eauto with grammar).
      * rule_step H; [to_spec; eauto with grammar |].
        rule_step H; [apply IHe in E1; to_spec; eauto 7 with grammar |].
        rule_step H; [apply IHe in E1; to_spec; eauto 7 with grammar |].
        apply IHe in E1. to_spec. eauto 7 with grammar.
      * rule_step H; [to_spec; eauto with grammar |].
        to_spec. eauto with grammar.
Qed.

(** ** The rules leave no choice *)

Lemma fetches_once ctx r1 c1 r2 c2 :
  fetches ctx r1 c1 -> fetches ctx r2 c2 -> r1 = r2 /\ c1 = c2.
Proof.
  unfold fetches. destruct (next_token ctx) as [[t | e] c];
    intros [-> ->] [-> ->]; now split.
Qed.

Lemma looks_once ctx r1 c1 r2 c2 :
  looks ctx r1 c1 -> looks ctx r2 c2 -> r1 = r2 /\ c1 = c2.
Proof.
  unfold looks. destruct (current ctx).
  - intros [-> ->] [-> ->]. now split.
  - destruct (next_token ctx) as [[t | e] c];
      intros [-> ->] [-> ->]; now split.
Qed.

Ltac same_step :=
  repeat match goal with
         | H1 : looks ?c _ _, H2 : looks ?c _ _ |- _ =>
             destruct (looks_once _ _ _ _ _ H1 H2); clear H2
         | H1 : fetches ?c _ _, H2 : fetches ?c _ _ |- _ =>
             destruct (fetches_once _ _ _ _ _ H1 H2); clear H2
         | H1 : binary_operator ?t = _, H2 : binary_operator ?t = _ |- _ =>
             rewrite H1 in H2; inversion H2; clear H2
         | H1 : unary_operator ?t = _, H2 : unary_operator ?t = _ |- _ =>
             rewrite H1 in H2; inversion H2; clear H2
         | H : Ok _ = Ok _ |- _ => inversion H; clear H
         | H : Some _ = Some _ |- _ => inversion H; clear H
         | H : (_, _) = (_, _) |- _ => inversion H; clear H
         | H : Ok _ = Err _ |- _ => discriminate H
         | H : Err _ = Ok _ |- _ => discriminate H
         | _ => progress subst
         end.

Lemma expects_once wanted p ctx r1 c1 r2 c2 :
  expects wanted p ctx r1 c1 -> expects wanted p ctx r2 c2 -> r1 = r2 /\ c1 = c2.
Proof.
  intros H1 H2. inversion H1; inversion H2; subst; same_step;
    split; congruence.
Qed.

Ltac same_rule :=
  repeat match goal with
         | H1 : expects ?w ?p ?c _ _, H2 : expects ?w ?p ?c _ _ |- _ =>
             destruct (expects_once _ _ _ _ _ _ _ H1 H2); clear H2
         | IH : context [spec_expr ?ctx], H : spec_expr ?ctx _ _ |- _ =>
             apply IH in H; destruct H
         | IH : context [spec_if ?ctx], H : spec_if ?ctx _ _ |- _ =>
             apply IH in H; destruct H
         | IH : context [spec_binary ?m ?ctx], H : spec_binary ?m ?ctx _ _ |- _ =>
             apply IH in H; destruct H
         | IH : context [spec_rest ?m ?l ?ctx], H : spec_rest ?m ?l ?ctx _ _ |- _ =>
             apply IH in H; destruct H
         | IH : context [spec_unary ?ctx], H : spec_unary ?ctx _ _ |- _ =>
             apply IH in H; destruct H
         | IH : context [spec_primary ?ctx], H : spec_primary ?ctx _ _ |- _ =>
             apply IH in H; destruct H
         | _ => progress same_step
         end.

(** A context and a rule have one result and one final context. *)
Lemma spec_deterministic :
  (forall ctx r1 c1, spec_expr ctx r1 c1 ->
     forall r2 c2, spec_expr ctx r2 c2 -> r1 = r2 /\ c1 = c2)
  /\ (forall ctx r1 c1, spec_if ctx r1 c1 ->
        forall r2 c2, spec_if ctx r2 c2 -> r1 = r2 /\ c1 = c2)
  /\ (forall m ctx r1 c1, spec_binary m ctx r1 c1 ->
        forall r2 c2, spec_binary m ctx r2 c2 -> r1 = r2 /\ c1 = c2)
  /\ (forall m lhs ctx r1 c1, spec_rest m lhs ctx r1 c1 ->
        forall r2 c2, spec_rest m lhs ctx r2 c2 -> r1 = r2 /\ c1 = c2)
  /\ (forall ctx r1 c1, spec_unary ctx r1 c1 ->
        forall r2 c2, spec_unary ctx r2 c2 -> r1 = r2 /\ c1 = c2)
  /\ (forall ctx r1 c1, spec_primary ctx r1 c1 ->
        forall r2 c2, spec_primary ctx r2 c2 -> r1 = r2 /\ c1 = c2).
Proof.
  apply spec_rules; intros;
    lazymatch goal with H : _ |- _ => inversion H; clear H end;
    same_rule; try (split; congruence); try lia;
    try (exfalso; match goal with H : forall v, _ <> _ |- _ => eapply H; reflexivity end).
Qed.

(** ** The model on the examples of the specification *)

Local Open Scope Z_scope.

Example tokens_longest_match :
  tokens 10 (context_of_source "a1 == 2 = if")
  = [Ok (TOKEN_IDENT "a1"); Ok (TOKEN_OPERATOR OP_EQ); Ok (TOKEN_INTEGER 2);
     Ok (TOKEN_OPERATOR OP_ASSIGN); Ok (TOKEN_KEYWORD KW_IF); Ok TOKEN_EOF].
Proof. vm_compute. reflexivity. Qed.

Example integer_literal_round_trip :
  fst (next_token (context_of_source "9223372036854775807"))
  = Ok (TOKEN_INTEGER 9223372036854775807)
  /\ PRId64 9223372036854775807 = "9223372036854775807"%string.
Proof. split; vm_compute; reflexivity. Qed.

Example integer_literal_out_of_range :
  fst (next_token (context_of_source "9223372036854775808"))
  = Err (MalformedNumber 0 (list_ascii_of_string "9223372036854775808")).
Proof. vm_compute. reflexivity. Qed.

Example unsupported_character :
  tokens 10 (context_of_source "1 + $")
  = [Ok (TOKEN_INTEGER 1); Ok (TOKEN_OPERATOR OP_PLUS); Err (UnexpectedChar 4 "$")].
Proof. vm_compute. reflexivity. Qed.

Example truncated_binary_expression :
  parse_source "1 +"
  = Some (Err (ParseFailure (UnexpectedToken TOKEN_EOF PROD_PRIMARY))).
Proof. vm_compute. reflexivity. Qed.

Example double_negation :
  parse_source "- - 5" = Some (Ok (UNARY NEGATE (UNARY NEGATE (INTEGER 5))))
  /\ evaluate (UNARY NEGATE (UNARY NEGATE (INTEGER 5))) = Ok 5.
Proof. split; vm_compute; reflexivity. Qed.

Example conditional_from_source :
  parse_source "if (1) 5 else (1/0)"
  = Some (Ok (IF (INTEGER 1) (INTEGER 5) (BINARY DIV (INTEGER 1) (INTEGER 0)))).
Proof. vm_compute. reflexivity. Qed.

(** ** The claims about the pipeline *)

(** C1: "1 + 2 * 3" parses to BINARY(+, 1, BINARY( *, 2, 3)), which
    evaluates to 7, and "10 - 3 - 2" parses to
    BINARY(-, BINARY(-, 10, 3), 2), which evaluates to 5: the product
    binds tighter than the sum, and equal precedence associates left. *)
Theorem precedence_and_associativity :
  parse_source "1 + 2 * 3"
  = Some (Ok (BINARY ADD (INTEGER 1) (BINARY MUL (INTEGER 2) (INTEGER 3))))
  /\ evaluate (BINARY ADD (INTEGER 1) (BINARY MUL (INTEGER 2) (INTEGER 3))) = Ok 7
  /\ parse_source "10 - 3 - 2"
     = Some (Ok (BINARY SUB (BINARY SUB (INTEGER 10) (INTEGER 3)) (INTEGER 2)))
  /\ evaluate (BINARY SUB (BINARY SUB (INTEGER 10) (INTEGER 3)) (INTEGER 2)) = Ok 5.
Proof. repeat split; vm_compute; reflexivity. Qed.

(** C2: an IF node evaluates its condition first (an error there is the
    result), then the consequent alone when the condition is not zero and
    the alternative alone when it is zero: the result is that branch's,
    whatever the other branch is.  So [if (1) 5 else (1/0)] and
    [if (0) (1/0) else 5] are 5, while [1/0] alone is DivisionByZero. *)
Theorem if_short_circuit (condition consequent alternative : Expr) :
  (forall x, evaluate condition = Err x ->
     evaluate (IF condition consequent alternative) = Err x)
  /\ (forall c, evaluate condition = Ok c -> c <> 0 ->
        evaluate (IF condition consequent alternative) = evaluate consequent)
  /\ (evaluate condition = Ok 0 ->
        evaluate (IF condition consequent alternative) = evaluate alternative)
  /\ evaluate (BINARY DIV (INTEGER 1) (INTEGER 0)) = Err DivisionByZero
  /\ evaluate (IF (INTEGER 1) (INTEGER 5) (BINARY DIV (INTEGER 1) (INTEGER 0))) = Ok 5
  /\ evaluate (IF (INTEGER 0) (BINARY DIV (INTEGER 1) (INTEGER 0)) (INTEGER 5)) = Ok 5.
Proof.
  repeat split; try reflexivity.
  - intros x H. simpl. now rewrite H.
  - intros c H Hc. simpl. rewrite H.
    destruct (c =? 0) eqn:E; [apply Z.eqb_eq in E; contradiction | reflexivity].
  - intro H. simpl. now rewrite H.
Qed.


(** C4: once [next_token] has returned [TOKEN_EOF], every later call on
    the context returns [TOKEN_EOF] again, never an error, and leaves the
    context as it is. *)
Theorem next_token_eof_idempotent (ctx ctx' : Context) :
  next_token ctx = (Ok TOKEN_EOF, ctx') ->
  forall n : nat,
    after_calls n ctx' = ctx'
    /\ next_token (after_calls n ctx') = (Ok TOKEN_EOF, ctx').
Proof.
  intros H n. apply next_token_eof_here in H as [_ H].
  induction n as [| n [IH1 IH2]]; simpl.
  - now split.
  - rewrite H. simpl. now split.
Qed.

End PipelineFacts.

(* ===================================================================== *)
(** * The claims on concrete inputs                                       *)
(* ===================================================================== *)

(** The driver is run here linked with the modelled pipeline
    ([Linked]), on the tree of [1 + 2 * 3] and on short sources. *)

(** Every token of the modelled lexer has a type of one of the families,
    and every tree of the modelled parser has the four discriminants. *)
Lemma linked_tokens_classified (t : Pipeline.Token) :
  classified Linked.TOKEN_EOF Linked.TOKEN_INTEGER Linked.TOKEN_IDENT
    Linked.token_type_is_keyword Linked.token_type_is_operator
    (token_type (Linked.token_of t)) = true.
Proof. destruct t as [[] | [] | | |]; reflexivity. Qed.

Lemma linked_trees_well_formed (e : Pipeline.Expr) :
  well_formed (Linked.expr_of e) = true.
Proof.
  induction e as [v | c IHc t IHt f IHf | op a IHa | op a IHa b IHb]; simpl.
  - reflexivity.
  - now rewrite IHc, IHt, IHf.
  - assumption.
  - now rewrite IHa, IHb.
Qed.

(** An integer token is printed as "integer 42". *)
Lemma print_token_line_witness :
  exists text : string,
    (forall w : world,
       Linked.print_token (mk_token Linked.TOKEN_INTEGER 42 "") w
       = (Returned tt, write_stdout (text ++ newline) w))
    /\ text = "integer 42".
Proof.
  destruct (print_token_line Linked.context_t
              Linked.TOKEN_EOF Linked.TOKEN_INTEGER Linked.TOKEN_IDENT
              Linked.token_type_is_keyword Linked.token_type_is_operator
              Linked.token_type_keyword_name Linked.token_type_operator_name
                  Linked.assert_diagnostic
              Linked.scan
              (mk_token Linked.TOKEN_INTEGER 42 ""))
    as (text & Hp & _ & _ & Hi & _).
  - vm_compute. discriminate.
  - vm_compute. reflexivity.
  - exists text. split.
    + exact Hp.
    + apply Hi; reflexivity.
Defined.

(** The tree of [1 + 2 * 3] is dumped on five lines. *)
Lemma print_expr_dump_witness :
  Linked.print_expr
    (EXPR_BINARY 20 (EXPR_INTEGER 1) (EXPR_BINARY 22 (EXPR_INTEGER 2) (EXPR_INTEGER 3)))
    0 world0
  = (Returned tt,
     write_stdout
       ("+" ++ newline ++ "  1" ++ newline ++ "  *" ++ newline
        ++ "    2" ++ newline ++ "    3" ++ newline) world0).
Proof.
  apply (proj1 (print_expr_dump Linked.token_type_operator_name Linked.assert_diagnostic
                  (EXPR_BINARY 20 (EXPR_INTEGER 1)
                     (EXPR_BINARY 22 (EXPR_INTEGER 2) (EXPR_INTEGER 3)))
                  0 world0
                  ltac:(reflexivity) ltac:(lia) ltac:(vm_compute; discriminate))).
Defined.

(** Neither the dump of that tree nor the token dump of a short source
    reaches [assert(false)]. *)
Lemma assert_false_unreachable_witness :
  fst (Linked.print_expr
         (EXPR_BINARY 20 (EXPR_INTEGER 1) (EXPR_BINARY 22 (EXPR_INTEGER 2) (EXPR_INTEGER 3)))
         0 world0) = Returned tt
  /\ fst (Linked.scan_main 10 (Pipeline.context_of_source "if x1 <= 42 else") world0)
     <> Aborted.
Proof.
  apply (assert_false_unreachable Linked.context_t
           Linked.TOKEN_EOF Linked.TOKEN_INTEGER Linked.TOKEN_IDENT
           Linked.token_type_is_keyword Linked.token_type_is_operator
           Linked.token_type_keyword_name Linked.token_type_operator_name
               Linked.assert_diagnostic
           Linked.scan).
  - reflexivity.
  - intros n Hn.
    do 10 (destruct n as [| n]; [vm_compute; reflexivity |]).
    lia.
Defined.

(** Without a file name main prints the usage line and returns 1; with
    the name of a file that holds [1 + 2 * 3] it returns 0. *)
Lemma main_exit_status_witness :
  Linked.main Linked.one_file ["simplang"%string] world0
  = (Returned 1, write_stderr ("Usage: simplang FILE" ++ newline) world0)
  /\ fst (Linked.main Linked.one_file ["simplang"%string; "prog"%string] world0)
     = Returned 0.
Proof.
  split.
  - apply (proj1 (main_exit_status Linked.context_t Linked.token_type_operator_name
      Linked.assert_diagnostic
                    (Linked.scan_init Linked.one_file) Linked.parse_expr
                    ["simplang"%string] world0)).
    simpl. lia.
  - apply (proj2 (main_exit_status Linked.context_t Linked.token_type_operator_name
      Linked.assert_diagnostic
                    (Linked.scan_init Linked.one_file) Linked.parse_expr
                    ["simplang"%string; "prog"%string] world0)).
    + reflexivity.
    + vm_compute. reflexivity.
Defined.

(** C7, as the claim states it, fails: an invocation without a file name
    runs no mode at all, not one. *)
Lemma main_without_file_runs_no_mode :
  List.length (modes_run (snd (Linked.main Linked.one_file ["simplang"%string] world0)))
  <> 1%nat.
Proof. vm_compute. discriminate. Qed.

(** [if (1) 5 else (1/0)] has the value of [5]. *)
Lemma if_short_circuit_witness :
  Pipeline.evaluate
    (Pipeline.IF (Pipeline.INTEGER 1) (Pipeline.INTEGER 5)
       (Pipeline.BINARY Pipeline.DIV (Pipeline.INTEGER 1) (Pipeline.INTEGER 0)))
  = Pipeline.evaluate (Pipeline.INTEGER 5).
Proof.
  apply (proj1 (proj2 (PipelineFacts.if_short_circuit
                         (Pipeline.INTEGER 1) (Pipeline.INTEGER 5)
                         (Pipeline.BINARY Pipeline.DIV (Pipeline.INTEGER 1)
                            (Pipeline.INTEGER 0)))) 1).
  - reflexivity.
  - lia.
Defined.


(** After the one token of [42 ] the lexer is at the end of input, and
    stays there. *)
Lemma next_token_eof_idempotent_witness :
  Pipeline.next_token
    (Pipeline.after_calls 3 (Pipeline.mk_context [] 3 1 None))
  = (Pipeline.Ok Pipeline.TOKEN_EOF, Pipeline.mk_context [] 3 1 None).
Proof.
  apply (PipelineFacts.next_token_eof_idempotent
           (Pipeline.after_calls 1 (Pipeline.context_of_source "42 "))
           (Pipeline.mk_context [] 3 1 None)).
  vm_compute. reflexivity.
Defined.

(* ===================================================================== *)
(** * More about the driver: whole runs of its functions                  *)
(* ===================================================================== *)

Lemma count_newlines_app (a b : string) :
  count_newlines (a ++ b) = (count_newlines a + count_newlines b)%nat.
Proof.
  induction a as [| c a IH]; simpl.
  - reflexivity.
  - rewrite IH. lia.
Qed.

Lemma count_newlines_indent (n : nat) : count_newlines (repeat_string "  " n) = O.
Proof. induction n as [| n IH]; simpl; [reflexivity | exact IH]. Qed.

Lemma count_newlines_uint (d : Decimal.uint) :
  count_newlines (NilEmpty.string_of_uint d) = O.
Proof. induction d; simpl; assumption || reflexivity. Qed.

(** A number is printed on one line. *)
Lemma count_newlines_PRId64 (i : Z) : count_newlines (PRId64 i) = O.
Proof.
  unfold PRId64, NilZero.string_of_int, NilZero.string_of_uint.
  destruct (Z.to_int i) as [d | d]; destruct d; simpl;
    reflexivity || exact (count_newlines_uint d).
Qed.

Section DriverRuns.

Local Set Warnings "-notation-for-abbreviation".

Variable context_t : Type.
Variables TOKEN_EOF TOKEN_INTEGER TOKEN_IDENT : token_type_t.
Variable token_type_is_keyword : token_type_t -> bool.
Variable token_type_is_operator : token_type_t -> bool.
Variable token_type_keyword_name : token_type_t -> string.
Variable token_type_operator_name : token_type_t -> string.
Variable assert_diagnostic : Z -> string -> string.
Variable scan_init : string -> context_t.
Variable scan : context_t -> token_t * context_t.
Variable parse_expr : context_t -> expr_t * context_t.

Notation print_token :=
  (print_token TOKEN_INTEGER TOKEN_IDENT token_type_is_keyword token_type_is_operator
     token_type_keyword_name token_type_operator_name assert_diagnostic).
Notation token_line :=
  (token_line TOKEN_INTEGER TOKEN_IDENT token_type_is_keyword token_type_is_operator
     token_type_keyword_name token_type_operator_name).
Notation scan_lines :=
  (scan_lines context_t TOKEN_INTEGER TOKEN_IDENT token_type_is_keyword
     token_type_is_operator token_type_keyword_name token_type_operator_name scan).
Notation scan_main_loop :=
  (scan_main_loop context_t TOKEN_EOF TOKEN_INTEGER TOKEN_IDENT token_type_is_keyword
     token_type_is_operator token_type_keyword_name token_type_operator_name
     assert_diagnostic scan).
Notation scan_main :=
  (scan_main context_t TOKEN_EOF TOKEN_INTEGER TOKEN_IDENT token_type_is_keyword
     token_type_is_operator token_type_keyword_name token_type_operator_name
     assert_diagnostic scan).
Notation classified :=
  (classified TOKEN_EOF TOKEN_INTEGER TOKEN_IDENT token_type_is_keyword
     token_type_is_operator).
Notation scan_iter := (scan_iter context_t scan).
Notation scan_token := (scan_token context_t scan).
Notation print_expr := (print_expr token_type_operator_name assert_diagnostic).
Notation print_expr_fuel :=
  (print_expr_fuel token_type_operator_name assert_diagnostic).
Notation print_expr_text :=
  (print_expr_text token_type_operator_name assert_diagnostic).
Notation dump := (dump token_type_operator_name).
Notation parse_main :=
  (parse_main context_t token_type_operator_name assert_diagnostic parse_expr).
Notation main :=
  (main context_t token_type_operator_name assert_diagnostic scan_init parse_expr).

(** ** scan_main, from the first token to the end of input *)

Lemma print_token_by_line (token : token_t) :
  print_token token
  = match token_line token with
    | Some text => printf text
    | None => assert_false (assert_diagnostic 24 "scan_main")
    end.
Proof.
  unfold print_token, token_line.
  destruct (token_type_is_keyword _); [reflexivity |].
  destruct (token_type_is_operator _); [reflexivity |].
  destruct (_ =? TOKEN_INTEGER); [reflexivity |].
  destruct (_ =? TOKEN_IDENT); reflexivity.
Qed.

Lemma token_line_classified (token : token_t) :
  token_type token <> TOKEN_EOF ->
  classified (token_type token) = true ->
  exists text, token_line token = Some text.
Proof.
  intros Heof H. apply Z.eqb_neq in Heof.
  unfold classified in H. rewrite Heof in H. simpl in H. unfold token_line.
  destruct (token_type_is_keyword _); [eauto |].
  destruct (token_type_is_operator _); [eauto |].
  destruct (_ =? TOKEN_INTEGER); [eauto |].
  destruct (_ =? TOKEN_IDENT); [eauto | discriminate].
Qed.

Lemma token_line_unclassified (token : token_t) :
  classified (token_type token) = false -> token_line token = None.
Proof.
  unfold classified, token_line. intro H.
  destruct (token_type_is_keyword _); [now rewrite orb_true_r in H |].
  destruct (token_type_is_operator _); [now rewrite orb_true_r in H |].
  destruct (_ =? TOKEN_INTEGER); [now rewrite orb_true_r in H |].
  destruct (_ =? TOKEN_IDENT); [now rewrite orb_true_r in H | reflexivity].
Qed.

Lemma scan_token_succ (i : nat) (ctx : context_t) :
  scan_token (S i) ctx = scan_token i (snd (scan ctx)).
Proof. reflexivity. Qed.

Lemma scan_main_loop_run (k : nat) :
  forall (fuel : nat) (ctx : context_t) (w : world),
    (forall i, (i < k)%nat ->
       token_type (scan_token i ctx) <> TOKEN_EOF
       /\ classified (token_type (scan_token i ctx)) = true) ->
    token_type (scan_token k ctx) = TOKEN_EOF ->
    (k < fuel)%nat ->
    scan_main_loop fuel ctx w
    = (Returned (scan_iter (S k) ctx),
       mk_world (stdout w ++ scan_lines k ctx) (stderr w)
         (calls w ++ repeat Call_scan (S k))).
Proof.
  induction k as [| k IH]; intros [| fuel] ctx w Hbefore Heof Hfuel; try lia.
  - simpl. unfold bind, call_scan, enter, ret. simpl.
    unfold scan_token in Heof. simpl in Heof.
    destruct (scan ctx) as [token ctx1]. simpl in *.
    apply Z.eqb_eq in Heof. rewrite Heof.
    unfold record_call. simpl. now rewrite string_app_empty.
  - simpl scan_main_loop. unfold bind, call_scan, enter, ret. simpl.
    destruct (Hbefore O ltac:(lia)) as [Hne Hcl].
    destruct (token_line_classified _ Hne Hcl) as [text Htext].
    unfold scan_token in Hne, Htext. simpl in Hne, Htext.
    specialize (IH fuel (snd (scan ctx))).
    simpl scan_lines. rewrite Htext.
    destruct (scan ctx) as [token ctx1] eqn:E. simpl in *.
    apply Z.eqb_neq in Hne. rewrite Hne.
    rewrite print_token_by_line, Htext. unfold printf.
    rewrite IH.
    + unfold write_stdout, record_call. simpl.
      now rewrite string_app_assoc, <- app_assoc.
    + intros i Hi. specialize (Hbefore (S i) ltac:(lia)).
      rewrite scan_token_succ, E in Hbefore. exact Hbefore.
    + rewrite scan_token_succ, E in Heof. exact Heof.
    + lia.
Qed.

Lemma scan_main_loop_abort (k : nat) :
  forall (fuel : nat) (ctx : context_t) (w : world),
    (forall i, (i < k)%nat ->
       token_type (scan_token i ctx) <> TOKEN_EOF
       /\ classified (token_type (scan_token i ctx)) = true) ->
    classified (token_type (scan_token k ctx)) = false ->
    (k < fuel)%nat ->
    scan_main_loop fuel ctx w
    = (Aborted,
       mk_world (stdout w ++ scan_lines k ctx)
         (stderr w ++ assert_diagnostic 24 "scan_main")
         (calls w ++ repeat Call_scan (S k))).
Proof.
  induction k as [| k IH]; intros [| fuel] ctx w Hbefore Hbad Hfuel; try lia.
  - simpl. unfold bind, call_scan, enter, ret. simpl.
    pose proof (token_line_unclassified _ Hbad) as Hnone.
    assert (Hne : (token_type (scan_token 0 ctx) =? TOKEN_EOF) = false).
    { unfold classified in Hbad.
      destruct (_ =? TOKEN_EOF); [discriminate | reflexivity]. }
    unfold scan_token in Hne, Hnone. simpl in Hne, Hnone.
    destruct (scan ctx) as [token ctx1]. simpl in *.
    rewrite Hne, print_token_by_line, Hnone.
    unfold assert_false, write_stderr, record_call. simpl.
    now rewrite string_app_empty.
  - simpl scan_main_loop. unfold bind, call_scan, enter, ret. simpl.
    destruct (Hbefore O ltac:(lia)) as [Hne Hcl].
    destruct (token_line_classified _ Hne Hcl) as [text Htext].
    unfold scan_token in Hne, Htext. simpl in Hne, Htext.
    specialize (IH fuel (snd (scan ctx))).
    simpl scan_lines. rewrite Htext.
    destruct (scan ctx) as [token ctx1] eqn:E. simpl in *.
    apply Z.eqb_neq in Hne. rewrite Hne.
    rewrite print_token_by_line, Htext. unfold printf.
    rewrite IH.
    + unfold write_stdout, record_call. simpl.
      now rewrite string_app_assoc, <- app_assoc.
    + intros i Hi. specialize (Hbefore (S i) ltac:(lia)).
      rewrite scan_token_succ, E in Hbefore. exact Hbefore.
    + rewrite scan_token_succ, E in Hbad. exact Hbad.
    + lia.
Qed.

Lemma scan_main_loop_returned (fuel : nat) :
  forall (ctx ctx' : context_t) (w w' : world),
    scan_main_loop fuel ctx w = (Returned ctx', w') ->
    exists k,
      (k < fuel)%nat
      /\ (forall i, (i < k)%nat ->
            token_type (scan_token i ctx) <> TOKEN_EOF
            /\ classified (token_type (scan_token i ctx)) = true)
      /\ token_type (scan_token k ctx) = TOKEN_EOF
      /\ ctx' = scan_iter (S k) ctx.
Proof.
  induction fuel as [| fuel IH]; intros ctx ctx' w w' H.
  - discriminate.
  - simpl in H. unfold bind, call_scan, enter, ret in H. simpl in H.
    destruct (scan ctx) as [token ctx1] eqn:E.
    destruct (token_type token =? TOKEN_EOF) eqn:Heof.
    + inversion H. subst. exists O. repeat split.
      * lia.
      * lia.
      * lia.
      * unfold scan_token. simpl. rewrite E. now apply Z.eqb_eq.
      * simpl. now rewrite E.
    + rewrite print_token_by_line in H.
      destruct (token_line token) as [text |] eqn:Hline;
        [| discriminate].
      unfold printf in H. apply IH in H as (k & Hk & Hbefore & Hend & Hctx).
      assert (Hcl : classified (token_type token) = true).
      { destruct (classified (token_type token)) eqn:C; [reflexivity |].
        apply token_line_unclassified in C. congruence. }
      exists (S k). split; [lia |]. split; [| split].
      * intros [| i] Hi.
        -- unfold scan_token. simpl. rewrite E. simpl.
           split; [now apply Z.eqb_neq | exact Hcl].
        -- rewrite scan_token_succ, E. apply Hbefore. lia.
      * now rewrite scan_token_succ, E.
      * subst ctx'. simpl. now rewrite E.
Qed.

(** X1: when the first [TOKEN_EOF] is the token of index [k] and the
    tokens before it are of the families, [scan_main] returns: it has
    called [scan] [k + 1] times and no more, and written the lines of the
    [k] tokens before the end, in order, and nothing else. *)
Theorem scan_main_run (k fuel : nat) (ctx : context_t) (w : world) :
  (forall i, (i < k)%nat ->
     token_type (scan_token i ctx) <> TOKEN_EOF
     /\ classified (token_type (scan_token i ctx)) = true) ->
  token_type (scan_token k ctx) = TOKEN_EOF ->
  (k < fuel)%nat ->
  scan_main fuel ctx w
  = (Returned (scan_iter (S k) ctx),
     mk_world (stdout w ++ scan_lines k ctx) (stderr w)
       (calls w ++ Call_scan_main :: repeat Call_scan (S k))).
Proof.
  intros Hbefore Heof Hfuel. unfold scan_main, bind, enter. simpl.
  rewrite (scan_main_loop_run k fuel ctx _ Hbefore Heof Hfuel).
  unfold record_call. simpl. now rewrite <- app_assoc.
Qed.

(** X2: [scan_main] has one way out.  If it returns, [scan] has returned
    [TOKEN_EOF]: at some call, after tokens that were all of the families
    and none of them [TOKEN_EOF], and the context handed back is the one
    of that call. *)
Theorem scan_main_returns_at_eof
  (fuel : nat) (ctx ctx' : context_t) (w w' : world) :
  scan_main fuel ctx w = (Returned ctx', w') ->
  exists k,
    (k < fuel)%nat
    /\ (forall i, (i < k)%nat ->
          token_type (scan_token i ctx) <> TOKEN_EOF
          /\ classified (token_type (scan_token i ctx)) = true)
    /\ token_type (scan_token k ctx) = TOKEN_EOF
    /\ ctx' = scan_iter (S k) ctx.
Proof.
  unfold scan_main, bind, enter. simpl. apply scan_main_loop_returned.
Qed.

(** X3: the first token that is neither [TOKEN_EOF] nor of a family stops
    [scan_main] at the [assert(false)] of line 24: the lines of the
    tokens before it have been passed to [printf], none for it, the
    diagnostic of the assertion is what the standard error gets, and
    [scan] is not called again. *)
Theorem scan_main_aborts (k fuel : nat) (ctx : context_t) (w : world) :
  (forall i, (i < k)%nat ->
     token_type (scan_token i ctx) <> TOKEN_EOF
     /\ classified (token_type (scan_token i ctx)) = true) ->
  classified (token_type (scan_token k ctx)) = false ->
  (k < fuel)%nat ->
  scan_main fuel ctx w
  = (Aborted,
     mk_world (stdout w ++ scan_lines k ctx)
       (stderr w ++ assert_diagnostic 24 "scan_main")
       (calls w ++ Call_scan_main :: repeat Call_scan (S k))).
Proof.
  intros Hbefore Hbad Hfuel. unfold scan_main, bind, enter. simpl.
  rewrite (scan_main_loop_abort k fuel ctx _ Hbefore Hbad Hfuel).
  unfold record_call. simpl. now rewrite <- app_assoc.
Qed.

(** ** print_expr, whatever the tree and the indent *)

Lemma print_expr_output (expr : expr_t) :
  forall indent : Z,
    exists out : string,
      forall w : world,
        print_expr expr indent w
        = if well_formed expr
          then (Returned tt, write_stdout out w)
          else (Aborted,
                write_stderr (assert_diagnostic 54 "print_expr") (write_stdout out w)).
Proof.
  induction expr as [i | c IHc t IHt e IHe | op a IHa | op a IHa b IHb | n];
    intro indent.
  - eexists. intro w. simpl. unfold bind, printf.
    rewrite print_indent_run, write_stdout_twice. reflexivity.
  - destruct (IHc (int_wrap (indent + 1))) as [oc Ec].
    destruct (IHt (int_wrap (indent + 1))) as [ot Et].
    destruct (IHe (int_wrap (indent + 1))) as [oe Ee].
    exists (repeat_string "  " (Z.to_nat indent) ++ ("if" ++ newline) ++ oc
            ++ (if well_formed c
                then ot ++ (if well_formed t then oe else "")
                else ""))%string.
    intro w. simpl. unfold bind, printf.
    rewrite print_indent_run, write_stdout_twice, Ec.
    destruct (well_formed c); simpl.
    + rewrite write_stdout_twice, Et. destruct (well_formed t); simpl.
      * rewrite write_stdout_twice, Ee.
        destruct (well_formed e); rewrite write_stdout_twice;
          now rewrite !string_app_assoc.
      * rewrite write_stdout_twice.
        now rewrite !string_app_assoc, string_app_empty.
    + rewrite write_stdout_twice.
      now rewrite !string_app_assoc, string_app_empty.
  - destruct (IHa (int_wrap (indent + 1))) as [oa Ea].
    exists (repeat_string "  " (Z.to_nat indent)
            ++ (token_type_operator_name op ++ newline) ++ oa)%string.
    intro w. simpl. unfold bind, printf.
    rewrite print_indent_run, write_stdout_twice, Ea.
    destruct (well_formed a); rewrite write_stdout_twice;
      now rewrite !string_app_assoc.
  - destruct (IHa (int_wrap (indent + 1))) as [oa Ea].
    destruct (IHb (int_wrap (indent + 1))) as [ob Eb].
    exists (repeat_string "  " (Z.to_nat indent)
            ++ (token_type_operator_name op ++ newline) ++ oa
            ++ (if well_formed a then ob else ""))%string.
    intro w. simpl. unfold bind, printf.
    rewrite print_indent_run, write_stdout_twice, Ea.
    destruct (well_formed a); simpl.
    + rewrite write_stdout_twice, Eb.
      destruct (well_formed b); rewrite write_stdout_twice;
        now rewrite !string_app_assoc.
    + rewrite write_stdout_twice.
      now rewrite !string_app_assoc, string_app_empty.
  - exists (repeat_string "  " (Z.to_nat indent)).
    intro w. simpl. unfold bind, assert_false.
    now rewrite print_indent_run.
Qed.

Lemma print_expr_appends (expr : expr_t) (indent : Z) (w : world) :
  print_expr expr indent w
  = (if well_formed expr then Returned tt else Aborted,
     mk_world (stdout w ++ print_expr_text expr indent)
       (stderr w ++ if well_formed expr then ""
                    else assert_diagnostic 54 "print_expr")
       (calls w)).
Proof.
  destruct (print_expr_output expr indent) as [out E].
  unfold print_expr_text. rewrite (E world0), (E w).
  destruct (well_formed expr); unfold write_stderr, write_stdout; simpl.
  - now rewrite string_app_empty.
  - reflexivity.
Qed.

(** X4: what [print_expr] does to the process does not depend on what
    was written before.  It passes a text to [printf], and that is all
    when every discriminant of the tree is an enumerator: the call
    returns and the standard error is untouched.  When a discriminant is
    not an enumerator the call does not return: the [assert(false)] of
    line 54 writes its diagnostic to the standard error and aborts.  So
    at any indent. *)
Theorem print_expr_frame (expr : expr_t) (indent : Z) (w : world) :
  print_expr expr indent w
  = (if well_formed expr then Returned tt else Aborted,
     mk_world (stdout w ++ print_expr_text expr indent)
       (stderr w ++ if well_formed expr then ""
                    else assert_diagnostic 54 "print_expr")
       (calls w)).
Proof.
  destruct (print_expr_output expr indent) as [out E].
  unfold print_expr_text. rewrite (E world0), (E w).
  destruct (well_formed expr); unfold write_stderr, write_stdout; simpl.
  - now rewrite string_app_empty.
  - reflexivity.
Qed.

Lemma print_expr_text_integer (i : Z) (indent : Z) :
  print_expr_text (EXPR_INTEGER i) indent
  = (repeat_string "  " (Z.to_nat indent) ++ PRId64 i ++ newline)%string.
Proof.
  unfold print_expr_text. simpl. unfold bind, printf.
  now rewrite print_indent_run.
Qed.

Lemma print_expr_text_if (c t e : expr_t) (indent : Z) :
  print_expr_text (EXPR_IF c t e) indent
  = (repeat_string "  " (Z.to_nat indent) ++ "if" ++ newline
     ++ print_expr_text c (int_wrap (indent + 1))
     ++ (if well_formed c
         then print_expr_text t (int_wrap (indent + 1))
              ++ (if well_formed t
                  then print_expr_text e (int_wrap (indent + 1))
                  else "")
         else ""))%string.
Proof.
  unfold print_expr_text at 1. simpl. unfold bind, printf.
  rewrite print_indent_run. simpl.
  rewrite print_expr_appends. destruct (well_formed c); simpl.
  - rewrite print_expr_appends. destruct (well_formed t); simpl.
    + rewrite print_expr_appends. simpl. now rewrite !string_app_assoc.
    + now rewrite !string_app_assoc, string_app_empty.
  - now rewrite !string_app_assoc, string_app_empty.
Qed.

Lemma print_expr_text_unary (op : token_type_t) (a : expr_t) (indent : Z) :
  print_expr_text (EXPR_UNARY op a) indent
  = (repeat_string "  " (Z.to_nat indent) ++ token_type_operator_name op ++ newline
     ++ print_expr_text a (int_wrap (indent + 1)))%string.
Proof.
  unfold print_expr_text at 1. simpl. unfold bind, printf.
  rewrite print_indent_run. simpl.
  rewrite print_expr_appends. simpl. now rewrite !string_app_assoc.
Qed.

Lemma print_expr_text_binary (op : token_type_t) (a b : expr_t) (indent : Z) :
  print_expr_text (EXPR_BINARY op a b) indent
  = (repeat_string "  " (Z.to_nat indent) ++ token_type_operator_name op ++ newline
     ++ print_expr_text a (int_wrap (indent + 1))
     ++ (if well_formed a
         then print_expr_text b (int_wrap (indent + 1))
         else ""))%string.
Proof.
  unfold print_expr_text at 1. simpl. unfold bind, printf.
  rewrite print_indent_run. simpl.
  rewrite print_expr_appends. destruct (well_formed a); simpl.
  - rewrite print_expr_appends. simpl. now rewrite !string_app_assoc.
  - now rewrite !string_app_assoc, string_app_empty.
Qed.

Lemma print_expr_text_invalid (type : Z) (indent : Z) :
  print_expr_text (EXPR_INVALID type) indent
  = repeat_string "  " (Z.to_nat indent).
Proof.
  unfold print_expr_text. simpl. unfold bind, assert_false.
  now rewrite print_indent_run.
Qed.

(** X5: the text of [print_expr], node by node.  A node writes its
    indent, then its own line, then the texts of its children in order at
    the wrapped indent plus one; once a child has a node whose
    discriminant is no enumerator, the children after it write nothing,
    and such a node itself writes its indent and no line. *)
Theorem print_expr_text_node (expr : expr_t) (indent : Z) :
  print_expr_text expr indent
  = (repeat_string "  " (Z.to_nat indent) ++
     match expr with
     | EXPR_INTEGER i => PRId64 i ++ newline
     | EXPR_IF condition consequent alternative =>
         "if" ++ newline
         ++ print_expr_text condition (int_wrap (indent + 1))
         ++ (if well_formed condition
             then print_expr_text consequent (int_wrap (indent + 1))
                  ++ (if well_formed consequent
                      then print_expr_text alternative (int_wrap (indent + 1))
                      else "")
             else "")
     | EXPR_UNARY op operand =>
         token_type_operator_name op ++ newline
         ++ print_expr_text operand (int_wrap (indent + 1))
     | EXPR_BINARY op left' right' =>
         token_type_operator_name op ++ newline
         ++ print_expr_text left' (int_wrap (indent + 1))
         ++ (if well_formed left'
             then print_expr_text right' (int_wrap (indent + 1))
             else "")
     | EXPR_INVALID _ => ""
     end)%string.
Proof.
  destruct expr as [i | c t e | op a | op a b | n].
  - apply print_expr_text_integer.
  - apply print_expr_text_if.
  - apply print_expr_text_unary.
  - apply print_expr_text_binary.
  - rewrite print_expr_text_invalid. now rewrite string_app_empty.
Qed.

(** X6: when no operator name holds a line end, [print_expr] writes at
    most one line per node, and exactly one per node when every
    discriminant of the tree is an enumerator, at any indent. *)
Theorem print_expr_line_count (expr : expr_t) (indent : Z) :
  (forall op, count_newlines (token_type_operator_name op) = O) ->
  (count_newlines (print_expr_text expr indent) <= node_count expr)%nat
  /\ (well_formed expr = true ->
      count_newlines (print_expr_text expr indent) = node_count expr).
Proof.
  intro Hnames. revert indent.
  induction expr as [i | c IHc t IHt e IHe | op a IHa | op a IHa b IHb | n];
    intro indent;
    rewrite ?print_expr_text_integer, ?print_expr_text_if, ?print_expr_text_unary,
      ?print_expr_text_binary, ?print_expr_text_invalid;
    rewrite ?count_newlines_app, ?count_newlines_indent, ?count_newlines_PRId64,
      ?Hnames; simpl.
  - split; [lia | reflexivity].
  - destruct (IHc (int_wrap (indent + 1))) as [Lc Ec].
    destruct (IHt (int_wrap (indent + 1))) as [Lt Et].
    destruct (IHe (int_wrap (indent + 1))) as [Le Ee].
    rewrite ?count_newlines_app.
    destruct (well_formed c); simpl.
    + rewrite ?count_newlines_app. destruct (well_formed t); simpl.
      * split; [lia |]. intro He. rewrite Ec, Et, Ee by (assumption || reflexivity). lia.
      * split; [lia | discriminate].
    + split; [lia | discriminate].
  - destruct (IHa (int_wrap (indent + 1))) as [La Ea].
    split; [lia |]. intro H. rewrite Ea by assumption. lia.
  - destruct (IHa (int_wrap (indent + 1))) as [La Ea].
    destruct (IHb (int_wrap (indent + 1))) as [Lb Eb].
    rewrite ?count_newlines_app.
    destruct (well_formed a); simpl.
    + split; [lia |]. intro H. rewrite Ea, Eb by (assumption || reflexivity). lia.
    + split; [lia | discriminate].
  - split; [lia | discriminate].
Qed.

(** X7: the calls of [print_expr] nest as deep as the tree: on a tree
    whose discriminants are enumerators, fuel for no more levels than
    the depth of the tree does not reach the deepest node. *)
Theorem print_expr_fuel_short (expr : expr_t) :
  forall (fuel : nat) (indent : Z) (w : world),
    well_formed expr = true ->
    (fuel <= depth expr)%nat ->
    fst (print_expr_fuel fuel expr indent w) = OutOfFuel.
Proof.
  induction expr as [i | c IHc t IHt e IHe | op a IHa | op a IHa b IHb | n];
    intros [| fuel] indent w Hwf Hf; try reflexivity; simpl in Hf, Hwf;
    try lia; try discriminate;
    simpl; unfold bind, printf; rewrite print_indent_run.
  - apply andb_prop in Hwf as [Hwf He]. apply andb_prop in Hwf as [Hc Ht].
    destruct (le_lt_dec fuel (depth c)) as [Lc | Gc].
    { match goal with |- context [print_expr_fuel fuel c ?i ?w'] =>
        pose proof (IHc fuel i w' Hc Lc) as Ho;
        destruct (print_expr_fuel fuel c i w') as [o w2] end.
      simpl in Ho. now subst o. }
    rewrite (print_expr_fuel_enough _ _ c fuel _ Gc), print_expr_appends, Hc.
    destruct (le_lt_dec fuel (depth t)) as [Lt | Gt].
    { match goal with |- context [print_expr_fuel fuel t ?i ?w'] =>
        pose proof (IHt fuel i w' Ht Lt) as Ho;
        destruct (print_expr_fuel fuel t i w') as [o w2] end.
      simpl in Ho. now subst o. }
    rewrite (print_expr_fuel_enough _ _ t fuel _ Gt), print_expr_appends, Ht.
    apply IHe; [assumption | lia].
  - destruct (le_lt_dec fuel (depth a)) as [La | Ga]; [| lia].
    match goal with |- context [print_expr_fuel fuel a ?i ?w'] =>
      pose proof (IHa fuel i w' Hwf La) as Ho;
      destruct (print_expr_fuel fuel a i w') as [o w2] end.
    simpl in Ho. now subst o.
  - apply andb_prop in Hwf as [Ha Hb].
    destruct (le_lt_dec fuel (depth a)) as [La | Ga].
    { match goal with |- context [print_expr_fuel fuel a ?i ?w'] =>
        pose proof (IHa fuel i w' Ha La) as Ho;
        destruct (print_expr_fuel fuel a i w') as [o w2] end.
      simpl in Ho. now subst o. }
    rewrite (print_expr_fuel_enough _ _ a fuel _ Ga), print_expr_appends, Ha.
    apply IHb; [assumption | lia].
Qed.

(** ** parse_main, eval_main and main, from call to return *)

(** X8: [parse_main] calls [parse_expr] once, on the context it is
    given, and writes the dump of the tree that comes back, from indent
    0; it writes nothing to the standard error and hands on the context
    that [parse_expr] left. *)
Theorem parse_main_prints_tree (ctx : context_t) (w : world) :
  well_formed (fst (parse_expr ctx)) = true ->
  Z.of_nat (depth (fst (parse_expr ctx))) <= INT_MAX ->
  parse_main ctx w
  = (Returned (snd (parse_expr ctx)),
     mk_world (stdout w ++ dump (fst (parse_expr ctx)) 0) (stderr w)
       (calls w ++ [Call_parse_main; Call_parse_expr])).
Proof.
  intros Hwf Hd. unfold parse_main, bind, enter, call_parse_expr, ret. simpl.
  destruct (parse_expr ctx) as [expr ctx']. simpl in *.
  rewrite (print_expr_run token_type_operator_name assert_diagnostic expr 0 _ Hwf) by lia.
  unfold write_stdout, record_call. simpl. now rewrite <- app_assoc.
Qed.

(** X9: with exactly one argument, main writes to the standard output
    the dump of the tree that [parse_expr] builds from the context of
    [scan_init argv[1]], and nothing else anywhere; it returns 0. *)
Theorem main_prints_tree (argv : list string) (w : world) :
  List.length argv = 2%nat ->
  well_formed (fst (parse_expr (scan_init (List.nth 1 argv EmptyString)))) = true ->
  Z.of_nat (depth (fst (parse_expr (scan_init (List.nth 1 argv EmptyString)))))
  <= INT_MAX ->
  main argv w
  = (Returned 0,
     mk_world
       (stdout w ++ dump (fst (parse_expr (scan_init (List.nth 1 argv EmptyString)))) 0)
       (stderr w)
       (calls w ++ [Call_scan_init (List.nth 1 argv EmptyString);
                    Call_parse_main; Call_parse_expr])).
Proof.
  intros Hlen Hwf Hd. unfold main. rewrite Hlen. simpl.
  unfold bind at 1. unfold call_scan_init, bind at 1, enter, ret. simpl.
  unfold parse_main, bind, enter, call_parse_expr, ret. simpl.
  destruct (parse_expr (scan_init (List.nth 1 argv EmptyString))) as [expr ctx'].
  simpl in *.
  rewrite (print_expr_run token_type_operator_name assert_diagnostic expr 0 _ Hwf) by lia.
  unfold write_stdout, record_call. simpl. now rewrite <- !app_assoc.
Qed.

(** X10: with exactly one argument and a tree from [parse_expr] that
    has a discriminant which is no enumerator, main does not return a
    status: after [scan_init] on [argv[1]] and one call of [parse_expr],
    [print_expr] passes the text of the nodes before that one to
    [printf] and is aborted by the [assert(false)] of line 54, whose
    diagnostic is all that the standard error gets. *)
Theorem main_aborts_on_invalid_tree (argv : list string) (w : world) :
  List.length argv = 2%nat ->
  well_formed (fst (parse_expr (scan_init (List.nth 1 argv EmptyString)))) = false ->
  main argv w
  = (Aborted,
     mk_world
       (stdout w
        ++ print_expr_text (fst (parse_expr (scan_init (List.nth 1 argv EmptyString)))) 0)
       (stderr w ++ assert_diagnostic 54 "print_expr")
       (calls w ++ [Call_scan_init (List.nth 1 argv EmptyString);
                    Call_parse_main; Call_parse_expr])).
Proof.
  intros Hlen Hbad. unfold main. rewrite Hlen. simpl.
  unfold bind at 1. unfold call_scan_init, bind at 1, enter, ret. simpl.
  unfold parse_main, bind, enter, call_parse_expr, ret. simpl.
  destruct (parse_expr (scan_init (List.nth 1 argv EmptyString))) as [expr ctx'].
  simpl in *.
  rewrite print_expr_appends, Hbad.
  unfold record_call. simpl. now rewrite <- !app_assoc.
Qed.

End DriverRuns.

(** ** Whole runs on concrete inputs *)

(** The operator names of the linked instance are free of line ends. *)
Lemma linked_operator_names_one_line (op : token_type_t) :
  count_newlines (Linked.token_type_operator_name op) = O.
Proof.
  unfold Linked.token_type_operator_name.
  generalize (Z.to_nat (op - 20)). intro n.
  do 15 (destruct n as [| n]; [reflexivity |]).
  destruct n; reflexivity.
Qed.

(** The token dump of [if x1 <= 42 else] is five lines, after six calls
    of the lexer. *)
Lemma scan_main_run_witness :
  Linked.scan_main 10 (Pipeline.context_of_source "if x1 <= 42 else") world0
  = (Returned (Pipeline.mk_context [] 16 1 None),
     mk_world
       ("keyword if" ++ newline ++ "identifier x1" ++ newline ++ "operator <="
        ++ newline ++ "integer 42" ++ newline ++ "keyword else" ++ newline)
       ""
       [Call_scan_main; Call_scan; Call_scan; Call_scan; Call_scan; Call_scan;
        Call_scan]).
Proof.
  unfold Linked.scan_main.
  rewrite (scan_main_run Linked.context_t
             Linked.TOKEN_EOF Linked.TOKEN_INTEGER Linked.TOKEN_IDENT
             Linked.token_type_is_keyword Linked.token_type_is_operator
             Linked.token_type_keyword_name Linked.token_type_operator_name
                 Linked.assert_diagnostic
             Linked.scan 5 10).
  - vm_compute. reflexivity.
  - intros i Hi.
    do 5 (destruct i as [| i]; [split; [vm_compute; discriminate | vm_compute; reflexivity] |]).
    lia.
  - vm_compute. reflexivity.
  - lia.
Defined.

(** That run has returned, so one of the first ten tokens was the end of
    input. *)
Lemma scan_main_returns_at_eof_witness :
  exists k : nat,
    (k < 10)%nat
    /\ token_type
         (scan_token Linked.context_t Linked.scan k
            (Pipeline.context_of_source "if x1 <= 42 else"))
       = Linked.TOKEN_EOF.
Proof.
  destruct (scan_main_returns_at_eof Linked.context_t
              Linked.TOKEN_EOF Linked.TOKEN_INTEGER Linked.TOKEN_IDENT
              Linked.token_type_is_keyword Linked.token_type_is_operator
              Linked.token_type_keyword_name Linked.token_type_operator_name
                  Linked.assert_diagnostic
              Linked.scan 10
              (Pipeline.context_of_source "if x1 <= 42 else")
              (Pipeline.mk_context [] 16 1 None)
              world0
              (snd (Linked.scan_main 10
                      (Pipeline.context_of_source "if x1 <= 42 else") world0)))
    as (k & Hk & _ & Heof & _).
  - vm_compute. reflexivity.
  - exists k. split; assumption.
Defined.

(** The token dump of [x $] stops at the dollar sign, after the line of
    [x], with the diagnostic of line 24. *)
Lemma scan_main_aborts_witness :
  Linked.scan_main 10 (Pipeline.context_of_source "x $") world0
  = (Aborted,
     mk_world ("identifier x" ++ newline)
       (Linked.assert_diagnostic 24 "scan_main")
       [Call_scan_main; Call_scan; Call_scan]).
Proof.
  unfold Linked.scan_main.
  rewrite (scan_main_aborts Linked.context_t
             Linked.TOKEN_EOF Linked.TOKEN_INTEGER Linked.TOKEN_IDENT
             Linked.token_type_is_keyword Linked.token_type_is_operator
             Linked.token_type_keyword_name Linked.token_type_operator_name
                 Linked.assert_diagnostic
             Linked.scan 1 10).
  - vm_compute. reflexivity.
  - intros i Hi.
    destruct i as [| i]; [split; [vm_compute; discriminate | vm_compute; reflexivity] |].
    lia.
  - vm_compute. reflexivity.
  - lia.
Defined.

(** The dump of the tree of [1 + 2 * 3] has five lines. *)
Lemma print_expr_line_count_witness :
  count_newlines
    (print_expr_text Linked.token_type_operator_name Linked.assert_diagnostic
       (EXPR_BINARY 20 (EXPR_INTEGER 1) (EXPR_BINARY 22 (EXPR_INTEGER 2) (EXPR_INTEGER 3)))
       0)
  = 5%nat.
Proof.
  apply (proj2 (print_expr_line_count Linked.token_type_operator_name
      Linked.assert_diagnostic
                  (EXPR_BINARY 20 (EXPR_INTEGER 1)
                     (EXPR_BINARY 22 (EXPR_INTEGER 2) (EXPR_INTEGER 3)))
                  0 linked_operator_names_one_line)).
  reflexivity.
Defined.

(** Two levels of fuel do not print the three levels of that tree. *)
Lemma print_expr_fuel_short_witness :
  fst (print_expr_fuel Linked.token_type_operator_name Linked.assert_diagnostic 2
         (EXPR_BINARY 20 (EXPR_INTEGER 1) (EXPR_BINARY 22 (EXPR_INTEGER 2) (EXPR_INTEGER 3)))
         0 world0)
  = OutOfFuel.
Proof.
  apply (print_expr_fuel_short Linked.token_type_operator_name Linked.assert_diagnostic).
  - reflexivity.
  - simpl. lia.
Defined.

(** [parse_main] on the source [1 + 2 * 3]. *)
Lemma parse_main_prints_tree_witness :
  stdout
    (snd (parse_main Linked.context_t Linked.token_type_operator_name
        Linked.assert_diagnostic Linked.parse_expr
            (Pipeline.context_of_source "1 + 2 * 3") world0))
  = ("+" ++ newline ++ "  1" ++ newline ++ "  *" ++ newline
     ++ "    2" ++ newline ++ "    3" ++ newline)%string.
Proof.
  rewrite (parse_main_prints_tree Linked.context_t Linked.token_type_operator_name
      Linked.assert_diagnostic
             Linked.parse_expr).
  - vm_compute. reflexivity.
  - vm_compute. reflexivity.
  - vm_compute. discriminate.
Defined.

(** main on the file that holds [1 + 2 * 3]. *)
Lemma main_prints_tree_witness :
  Linked.main Linked.one_file ["simplang"%string; "prog"%string] world0
  = (Returned 0,
     mk_world
       ("+" ++ newline ++ "  1" ++ newline ++ "  *" ++ newline
        ++ "    2" ++ newline ++ "    3" ++ newline)
       ""
       [Call_scan_init "prog"; Call_parse_main; Call_parse_expr]).
Proof.
  unfold Linked.main.
  rewrite (main_prints_tree Linked.context_t Linked.token_type_operator_name
      Linked.assert_diagnostic
             (Linked.scan_init Linked.one_file) Linked.parse_expr).
  - vm_compute. reflexivity.
  - reflexivity.
  - vm_compute. reflexivity.
  - vm_compute. discriminate.
Defined.

(** main on a parser that hands back the tree of [1 + ?], whose right
    operand has the discriminant 7: the lines of [+] and [1] and the
    indent of the third node, then the diagnostic of line 54. *)
Lemma main_aborts_on_invalid_tree_witness :
  main unit Linked.token_type_operator_name Linked.assert_diagnostic
    (fun _ => tt)
    (fun ctx => (EXPR_BINARY 20 (EXPR_INTEGER 1) (EXPR_INVALID 7), ctx))
    ["simplang"%string; "prog"%string] world0
  = (Aborted,
     mk_world ("+" ++ newline ++ "  1" ++ newline ++ "  ")
       (Linked.assert_diagnostic 54 "print_expr")
       [Call_scan_init "prog"; Call_parse_main; Call_parse_expr]).
Proof.
  rewrite (main_aborts_on_invalid_tree unit Linked.token_type_operator_name
             Linked.assert_diagnostic (fun _ => tt)
             (fun ctx => (EXPR_BINARY 20 (EXPR_INTEGER 1) (EXPR_INVALID 7), ctx))).
  - vm_compute. reflexivity.
  - reflexivity.
  - reflexivity.
Defined.
